(** * pyrixs.loaddata: image / photon-event conversion and file dispatch

    A shallow embedding of [pyrixs/loaddata.py].

    Modelling conventions.
    - A numpy float64 is a value of [f64]: a finite binary64 number, an
      infinity or NaN.  A finite number is held as the integer count of
      its units of 2^-1074, so that sums and differences are exact in [Z]
      and every operation ends with one rounding to 53 significant bits,
      to nearest, ties to even.  Subnormals are the small counts; the two
      zeros are identified, as numpy's [==] and [astype(int)] do.
    - A numpy [int] is a 64-bit integer held in [Z].  [astype(int)]
      truncates toward zero; a value that does not fit, an infinity or
      NaN gives -2^63, as the conversion instruction of x86-64 does.
    - A 2-D array is its shape together with its row-major buffer; the
      element type is a parameter, with the conversion to float64 that
      numpy applies when arrays of different types are stacked.
    - A photon-events array (shape (N, 3), float64) is the list of its rows.
    - A Python exception is the [Raise] result; [print] appends to an output
      log that is threaded next to the result. *)

From Corelib Require Import Numbers.Cyclic.Int63.PrimInt63.
From Stdlib Require Import Floats.PrimFloat Floats.FloatOps Floats.SpecFloat.
From Stdlib Require Import ZArith QArith Qround String Ascii DecimalString Lia.
From stdpp Require Import base list.

Local Open Scope nat_scope.

(** ** Exceptions and the result monad *)

Inductive exn : Type :=
  | ValueError
  | IndexError
  | UnboundLocalError
  | KeyError
  | IOError
  | Exception (msg : string).

Inductive result (A : Type) : Type :=
  | Ok (a : A)
  | Raise (e : exn).
Arguments Ok {A} a.
Arguments Raise {A} e.

#[global] Instance result_bind : MBind result := fun _ _ f m =>
  match m with
  | Ok a => f a
  | Raise e => Raise e
  end.

(** ** Binary64 *)

(** The exponent of the last kept bit of the non-negative count [a]: 53
    bits are kept, and counts below 2^53 are kept whole. *)
Definition ulp_exp (a : Z) : Z := Z.max 0 (Z.log2 a - 52).

(** Rounding of a non-negative count to 53 significant bits, to nearest,
    ties to the even significand. *)
Definition round53_nat (a : Z) : Z :=
  let k := ulp_exp a in
  let q := (a / 2 ^ k)%Z in
  let r := (a mod 2 ^ k)%Z in
  if ((2 ^ k <? 2 * r) || ((2 ^ k =? 2 * r) && Z.odd q))%Z
  then ((q + 1) * 2 ^ k)%Z else (q * 2 ^ k)%Z.

Definition round53 (n : Z) : Z := (Z.sgn n * round53_nat (Z.abs n))%Z.

(** [n] units of 2^-1074 are a finite binary64 number: 53 bits suffice and
    the magnitude is below 2^1024. *)
Definition is_f64 (n : Z) : bool :=
  ((round53 n =? n) && (Z.abs n <? 2 ^ 2098))%Z.

Inductive f64 : Type :=
  | Finite (n : Z) (ok : is_f64 n = true)
  | Infinity (negative : bool)
  | NaN.

(** [Finite r] when [r] is a binary64 count, [other] when it is not. *)
Definition finite_or (r : Z) (other : f64) : f64 :=
  (if is_f64 r as b return is_f64 r = b -> f64
   then fun ok => Finite r ok else fun _ => other) eq_refl.

(** The binary64 number nearest to [z] units of 2^-1074; a rounded
    magnitude of 2^1024 or more overflows to the infinity of its sign. *)
Definition f64_round (z : Z) : f64 :=
  let r := round53 z in finite_or r (Infinity (r <? 0)%Z).

(** The float64 nearest to the integer [z], and to [m * 2^e]. *)
Definition f64_of_Z (z : Z) : f64 := f64_round (z * 2 ^ 1074).
Definition f64_dyadic (m e : Z) : f64 := f64_round (m * 2 ^ (e + 1074)).

Definition f64_zero : f64 := f64_of_Z 0.
Definition f64_one : f64 := f64_of_Z 1.
Definition f64_half : f64 := f64_dyadic 1 (-1).

Definition f64_add (a b : f64) : f64 :=
  match a, b with
  | NaN, _ | _, NaN => NaN
  | Finite n _, Finite m _ => f64_round (n + m)
  | Infinity s, Finite _ _ => Infinity s
  | Finite _ _, Infinity s => Infinity s
  | Infinity s, Infinity t => if Bool.eqb s t then Infinity s else NaN
  end.

Definition f64_sub (a b : f64) : f64 :=
  match a, b with
  | NaN, _ | _, NaN => NaN
  | Finite n _, Finite m _ => f64_round (n - m)
  | Infinity s, Finite _ _ => Infinity s
  | Finite _ _, Infinity s => Infinity (negb s)
  | Infinity s, Infinity t => if Bool.eqb s t then NaN else Infinity s
  end.

(** [v.astype(int)] on one value. *)
Definition astype_int64 (v : f64) : Z :=
  match v with
  | Finite n _ =>
      let t := Z.quot n (2 ^ 1074) in
      if ((- 2 ^ 63 <=? t) && (t <? 2 ^ 63))%Z then t else (- 2 ^ 63)%Z
  | _ => (- 2 ^ 63)%Z
  end.

(** The element types of the arrays the module meets, each with its
    conversion to float64. *)
Class DType (A : Type) := to_float64 : A -> f64.
#[global] Instance int_dtype : DType Z := f64_of_Z.
#[global] Instance float_dtype : DType f64 := fun v => v.

(** The hardware's binary64 numbers, read into the model. *)
Definition f64_of_prim (x : PrimFloat.float) : f64 :=
  match Prim2SF x with
  | S754_zero _ => f64_zero
  | S754_infinity s => Infinity s
  | S754_nan => NaN
  | S754_finite s m e =>
      f64_round ((if s then -1 else 1) * Z.pos m * 2 ^ (e + 1074))
  end.

(** ** The numpy fragment used by the module *)

Record ndarray2 (A : Type) : Type := Array2 {
  shape0 : nat;
  shape1 : nat;
  flat : list A
}.
Arguments Array2 {A} shape0 shape1 flat.
Arguments shape0 {A} _.
Arguments shape1 {A} _.
Arguments flat {A} _.

(** The buffer has exactly [shape0 * shape1] cells: what every numpy array
    satisfies. *)
Definition well_shaped {A} (a : ndarray2 A) : Prop :=
  length (flat a) = shape0 a * shape1 a.

(** [a[r][c]] for in-range, non-negative [r] and [c]. *)
Definition cell {A} (a : ndarray2 A) (r c : nat) : option A :=
  flat a !! (r * shape1 a + c).

Definition half : Q := 1 # 2.

(** [np.arange(n)]: an int64 array. *)
Definition arange (n : nat) : list Z := Z.of_nat <$> seq 0 n.

(** [v.astype(float64)], the conversion numpy applies to an operand that
    meets a float64 one. *)
Definition astype_float64 {A} `{DType A} (v : list A) : list f64 :=
  to_float64 <$> v.

(** [v + s] for an integer 1-D array [v] and a float [s]: the result is
    float64. *)
Definition add_scalar (v : list Z) (s : f64) : list f64 :=
  (fun e => f64_add e s) <$> astype_float64 v.

(** [v - s] for a float64 1-D array [v] and a float [s]. *)
Definition sub_scalar (v : list f64) (s : f64) : list f64 :=
  (fun e => f64_sub e s) <$> v.

(** [np.meshgrid(xs, ys)] with the default 'xy' indexing: both outputs have
    shape (len ys, len xs); the first repeats [xs] on every row, the second
    holds [ys !! r] all along row [r]. *)
Definition meshgrid {A} (xs ys : list A) : ndarray2 A * ndarray2 A :=
  (Array2 (length ys) (length xs) (mjoin ((fun _ => xs) <$> ys)),
   Array2 (length ys) (length xs)
          (mjoin ((fun y => replicate (length xs) y) <$> ys))).

(** [a.ravel()]: the row-major listing. *)
Definition ravel {A} (a : ndarray2 A) : list A := flat a.

(** [np.vstack((a, b, c)).transpose()] for three 1-D arrays of one length
    and one element type: row [k] is [(a[k], b[k], c[k])].  Operands of
    another type are converted by the caller first. *)
Definition vstack3_transpose {A} (a b c : list A) : list (A * A * A) :=
  zip (zip a b) c.

Definition astype_int (v : list f64) : list Z := astype_int64 <$> v.

(** [v.max()]: raises on a zero-size array. *)
Definition amax (v : list Z) : result Z :=
  match v with
  | [] => Raise ValueError
  | i :: v' => Ok (foldl Z.max i v')
  end.

(** [np.zeros((n0, n1))]: float64; negative dimensions are not allowed. *)
Definition zeros (n0 n1 : Z) : result (ndarray2 f64) :=
  if ((n0 <? 0) || (n1 <? 0))%Z then Raise ValueError
  else Ok (Array2 (Z.to_nat n0) (Z.to_nat n1)
                  (replicate (Z.to_nat n0 * Z.to_nat n1) f64_zero)).

(** numpy index normalisation along an axis of size [n]: [-n <= i < 0]
    counts from the end, anything outside [-n, n) is an IndexError. *)
Definition wrap_index (n : nat) (i : Z) : result nat :=
  if ((0 <=? i) && (i <? Z.of_nat n))%Z then Ok (Z.to_nat i)
  else if ((- Z.of_nat n <=? i) && (i <? 0))%Z then Ok (Z.to_nat (i + Z.of_nat n))
  else Raise IndexError.

(** [a[i, j] = v] *)
Definition setitem (a : ndarray2 f64) (i j : Z) (v : f64) : result (ndarray2 f64) :=
  r ← wrap_index (shape0 a) i;
  c ← wrap_index (shape1 a) j;
  Ok (Array2 (shape0 a) (shape1 a) (<[r * shape1 a + c := v]> (flat a))).

(** [a[ii, jj] = vs] with integer index arrays of one length.  The
    assignments are done one after the other in index order, as numpy's
    implementation does, so a repeated index keeps the last value. *)
Fixpoint setitem_fancy (a : ndarray2 f64) (w : list (Z * Z * f64))
  : result (ndarray2 f64) :=
  match w with
  | [] => Ok a
  | (i, j, v) :: w' => a' ← setitem a i j v; setitem_fancy a' w'
  end.

(** Column slices [e[:,0]], [e[:,1]], [e[:,2]] of an (N, 3) array. *)
Definition col0 (e : list (f64 * f64 * f64)) : list f64 := (fun t => t.1.1) <$> e.
Definition col1 (e : list (f64 * f64 * f64)) : list f64 := (fun t => t.1.2) <$> e.
Definition col2 (e : list (f64 * f64 * f64)) : list f64 := (fun t => t.2) <$> e.

(** ** The two converters *)

Definition image_to_photon_events {A} `{DType A} (image : ndarray2 A)
  : list (f64 * f64 * f64) :=
  let '(X, Y) := meshgrid (add_scalar (arange (shape1 image)) f64_half)
                          (add_scalar (arange (shape0 image)) f64_half) in
  vstack3_transpose (ravel X) (ravel Y) (astype_float64 (ravel image)).

(** The indices are int64 values no greater than 2^63 - 1024, the
    greatest float64 below 2^63, so the two sums [max() + 1] stay within
    int64 and are written as sums in [Z]. *)
Definition photon_events_to_image (photon_events : list (f64 * f64 * f64))
  : result (ndarray2 f64) :=
  let x := col0 photon_events in
  let y := col1 photon_events in
  let I := col2 photon_events in
  let xind := astype_int (sub_scalar x f64_half) in
  let yind := astype_int (sub_scalar y f64_half) in
  ymax ← amax yind;
  xmax ← amax xind;
  image ← zeros (ymax + 1) (xmax + 1);
  setitem_fancy image (zip (zip yind xind) I).

(** ** Strings *)

(** [s[-n:]]: the last [n] characters, the whole string when it is shorter. *)
Definition slice_last (n : nat) (s : string) : string :=
  substring (String.length s - n) n s.

Definition lower_ascii (c : ascii) : ascii :=
  let n := nat_of_ascii c in
  if (65 <=? n) && (n <=? 90) then ascii_of_nat (n + 32) else c.

(** [s.lower()] on ASCII text. *)
Fixpoint lower (s : string) : string :=
  match s with
  | EmptyString => EmptyString
  | String c s' => String (lower_ascii c) (lower s')
  end.

(** [sub in s] *)
Definition contains (sub s : string) : bool :=
  match index 0 sub s with
  | Some _ => true
  | None => false
  end.

(** [s.split('/')[-1]] *)
Fixpoint last_component (acc s : string) : string :=
  match s with
  | EmptyString => acc
  | String c s' =>
      if Ascii.eqb c "/" then last_component EmptyString s'
      else last_component (acc ++ String c EmptyString) s'
  end.

(** ['{:d}'.format(n)] *)
Definition format_d (n : nat) : string :=
  NilEmpty.string_of_uint (Nat.to_uint n).

(** [s.endswith(suffix)]: some tail of [s] is [suffix]. *)
Fixpoint endswith (s suffix : string) : bool :=
  String.eqb s suffix ||
  match s with
  | EmptyString => false
  | String _ s' => endswith s' suffix
  end.

(** The file name carries extension [ext] (given in lower case), in any
    letter case. *)
Definition has_extension (ext filename : string) : bool :=
  endswith (lower filename) ext.

(** ** Output log next to the result *)

Definition io (A : Type) : Type := (list string * result A)%type.

Definition io_ret {A} (a : A) : io A := ([], Ok a).
Definition io_raise {A} (e : exn) : io A := ([], Raise e).
Definition print (line : string) : io unit := ([line], Ok tt).
Definition lift {A} (r : result A) : io A := ([], r).
Definition io_bind {A B} (m : io A) (f : A -> io B) : io B :=
  match m with
  | (out, Ok a) => let '(out', r) := f a in (out ++ out', r)
  | (out, Raise e) => (out, Raise e)
  end.

Declare Scope io_scope.
Delimit Scope io_scope with io.
Notation "x <- m ;; k" := (io_bind m (fun x => k))
  (at level 100, m at next level, right associativity) : io_scope.
Notation "m ;; k" := (io_bind m (fun _ => k))
  (at level 100, right associativity) : io_scope.
(** ** File loading *)

(** What [get_image] hands back: an events array, a list of events arrays
    (one per scan frame), or [None]. *)
Inductive image_value : Type :=
  | Events (e : list (f64 * f64 * f64))
  | EventsList (l : list (list (f64 * f64 * f64)))
  | NoneValue.

Section Loaders.
(** The file readers are external to the module. *)

(** [h5py.File(f)['entry']['analysis']['events'].value]: an (N, 2) float64
    array. *)
Variable h5_events : string -> result (list (f64 * f64)).
(** The element type of the images in the files. *)
Context {pixel : Type} `{DType pixel}.
(** [plt.imread(f)] *)
Variable imread : string -> result (ndarray2 pixel).
(** [nxload(f)]: the entries in iteration order, each key with the frames
    found at [.scan_data.data_01.nxdata] under it. *)
Variable nxload : string -> result (list (string * result (list (ndarray2 pixel)))).
(** The array type [np.loadtxt] returns, and [np.loadtxt(f)]. *)
Variable table : Type.
Variable loadtxt : string -> result table.
(** [h5py.File(f)['entry']['analysis']['spectrum'].value], closing the
    file afterwards. *)
Variable h5_spectrum : string -> result (list Q).

(** The value of [lb] after the loop over the keys. *)
Definition last_scan_key (keys : list string) : option string :=
  foldl (fun lb key => if contains "scan" key then Some key else lb) None keys.

(** [fload[lb]] *)
Fixpoint getitem_key {A} (fload : list (string * A)) (lb : string) : option A :=
  match fload with
  | [] => None
  | (k, v) :: rest => if String.eqb k lb then Some v else getitem_key rest lb
  end.

Definition load_nxfile (filename : string) : io (list (ndarray2 pixel)) :=
  (fload <- lift (nxload filename) ;;
   match last_scan_key (fst <$> fload) with
   | None => io_raise UnboundLocalError
   | Some lb =>
       match getitem_key fload lb with
       | None => io_raise KeyError
       | Some entry =>
           data <- lift entry ;;
           print ("NXS file " ++ last_component EmptyString filename
                  ++ " contains " ++ format_d (length data) ++ " image(s).") ;;
           io_ret ((fun i => default (Array2 0 0 []) (data !! i))
                     <$> seq 0 (length data))
       end
   end)%io.

Definition get_image (filename : string) : io image_value :=
  (if String.eqb (lower (slice_last 3 filename)) ".h5" then
     XY <- lift (h5_events filename) ;;
     let I := replicate (length XY) f64_one in
     io_ret (Events (zip XY I))
   else if String.eqb (lower (slice_last 4 filename)) ".tif" then
     image <- lift (imread filename) ;;
     io_ret (Events (image_to_photon_events image))
   else if String.eqb (lower (slice_last 4 filename)) ".nxs" then
     image <- load_nxfile filename ;;
     io_ret (EventsList (image_to_photon_events <$> image))
   else
     print ("Unknown file extention " ++ filename) ;;
     io_ret NoneValue)%io.

(** What [get_spectrum] returns: whatever [np.loadtxt] gave, or the
    three-column array built from an HDF5 spectrum. *)
Inductive spectrum_value : Type :=
  | Table (t : table)
  | Columns (rows : list (Q * Q * Q)).

(** The spectrum is held by the exact values of its channels; the channel
    numbers are brought to the same type before stacking. *)
Definition get_spectrum (filename : string) : io spectrum_value :=
  (if String.eqb (slice_last 4 filename) ".txt" then
     t <- lift (loadtxt filename) ;; io_ret (Table t)
   else if String.eqb (slice_last 4 filename) ".dat" then
     t <- lift (loadtxt filename) ;; io_ret (Table t)
   else if String.eqb (slice_last 4 filename) ".spec" then
     t <- lift (loadtxt filename) ;; io_ret (Table t)
   else if String.eqb (lower (slice_last 3 filename)) ".h5" then
     I <- lift (h5_spectrum filename) ;;
     io_ret (Columns (vstack3_transpose (inject_Z <$> arange (length I)) I I))
   else
     io_raise (Exception "Wrong file extension"))%io.

End Loaders.

Arguments Table {table} t.
Arguments Columns {table} rows.
Arguments get_spectrum {table} loadtxt h5_spectrum filename.

(** ** Vocabulary of the specification *)

(** The number of units of 2^-1074 in 1. *)
Definition units_per_one : positive := (2 ^ 1074)%positive.

(** The real number a finite [v] stands for (0 for an infinity or NaN). *)
Definition f64_real (v : f64) : Q :=
  match v with
  | Finite n _ => n # units_per_one
  | _ => 0
  end.

(** [v] is a finite float64 and stands for the real number [q]. *)
Definition has_value (v : f64) (q : Q) : Prop :=
  match v with
  | Finite n _ => (n # units_per_one == q)%Q
  | _ => False
  end.

(** [v] is a finite float64 whose value lies in [[lo, hi)]. *)
Definition value_in (lo hi : Q) (v : f64) : Prop :=
  exists q, has_value v q /\ (lo <= q)%Q /\ (q < hi)%Q.

(** The least real number above -0.5 whose difference with 0.5 is still
    above -1 after rounding: -0.5 + 2^-53. *)
Definition just_above_minus_half : Q := - half + (1 # 2 ^ 53).

(** A pixel-center coordinate: an integer pixel index plus one half. *)
Definition pixel_center (v : f64) : Prop :=
  exists k : nat, has_value v (inject_Z (Z.of_nat k) + half).

(** Every event of the sequence carries pixel-center coordinates. *)
Definition pixel_center_events (evs : list (f64 * f64 * f64)) : Prop :=
  Forall (fun e => pixel_center e.1.1 /\ pixel_center e.1.2) evs.

(** The indices the contract derives from an event: [floor(x - 0.5)] and
    [floor(y - 0.5)], on the real numbers. *)
Definition floor_col (e : f64 * f64 * f64) : Z := Qfloor (f64_real e.1.1 - half).
Definition floor_row (e : f64 * f64 * f64) : Z := Qfloor (f64_real e.1.2 - half).

(** The index the code computes for a coordinate, and for an event. *)
Definition index_of (v : f64) : Z := astype_int64 (f64_sub v f64_half).
Definition trunc_col (e : f64 * f64 * f64) : Z := index_of e.1.1.
Definition trunc_row (e : f64 * f64 * f64) : Z := index_of e.1.2.

(** The coordinate the code computes for pixel index [k]. *)
Definition center (k : nat) : f64 := f64_add (to_float64 (Z.of_nat k)) f64_half.

(** The count of units of the real number [k + 0.5]. *)
Definition center_units (k : nat) : Z := ((2 * Z.of_nat k + 1) * 2 ^ 1073)%Z.

(** Every pixel center of the image is a binary64 number: at most 2^52
    rows and columns. *)
Definition indexable {A} (image : ndarray2 A) : Prop :=
  (Z.of_nat (shape0 image) <= 2 ^ 52)%Z /\ (Z.of_nat (shape1 image) <= 2 ^ 52)%Z.

(** [image.astype(float64)] *)
Definition image_astype_float64 {A} `{DType A} (image : ndarray2 A) : ndarray2 f64 :=
  Array2 (shape0 image) (shape1 image) (astype_float64 (flat image)).

(** [m] is the greatest element of [l]. *)
Definition is_max (m : Z) (l : list Z) : Prop :=
  m ∈ l /\ forall z, z ∈ l -> (z <= m)%Z.

(** The value the assignments [w], done in order, leave at [(i, j)]. *)
Fixpoint last_write (w : list (Z * Z * f64)) (i j : Z) : option f64 :=
  match w with
  | [] => None
  | (i', j', v) :: w' =>
      match last_write w' i j with
      | Some v' => Some v'
      | None => if decide (i' = i /\ j' = j) then Some v else None
      end
  end.

(** The assignments [image[yind, xind] = I] performs, in order. *)
Definition writes (evs : list (f64 * f64 * f64)) : list (Z * Z * f64) :=
  (fun e => (trunc_row e, trunc_col e, e.2)) <$> evs.

(** Event [e] lands on cell [(r, c)] under the code's indices. *)
Definition lands (e : f64 * f64 * f64) (r c : nat) : Prop :=
  trunc_row e = Z.of_nat r /\ trunc_col e = Z.of_nat c.

(** Event [e] belongs to cell [(r, c)] under the contract's indices. *)
Definition hits (e : f64 * f64 * f64) (r c : nat) : Prop :=
  floor_row e = Z.of_nat r /\ floor_col e = Z.of_nat c.

(** Event [e] is assigned to cell [(r, c)] of an image of shape
    [(R, C)] once numpy has normalised its indices. *)
Definition lands_wrapped (R C : nat) (e : f64 * f64 * f64) (r c : nat) : Prop :=
  wrap_index R (trunc_row e) = Ok r /\ wrap_index C (trunc_col e) = Ok c.

(** The pixel an event is assigned to, as the pair of the code's indices. *)
Definition pixel_of (e : f64 * f64 * f64) : Z * Z := (trunc_row e, trunc_col e).


(** No ['/'] occurs in [s]. *)
Fixpoint no_slash (s : string) : bool :=
  match s with
  | EmptyString => true
  | String c s' => negb (Ascii.eqb c "/") && no_slash s'
  end.

(** ** Data for the examples *)

(** The float64 image [[1, 2], [3, 4]]. *)
Definition img22 : ndarray2 f64 :=
  Array2 2 2 [f64_of_Z 1; f64_of_Z 2; f64_of_Z 3; f64_of_Z 4].

(** The int64 image [[2^53 + 1]]. *)
Definition img_big : ndarray2 Z := Array2 1 1 [(2 ^ 53 + 1)%Z].

(** Two events on one pixel followed by one on its neighbour:
    (1.5, 0.5, 7), (1.5, 0.5, 9), (2.5, 0.5, 4). *)
Definition evs3 : list (f64 * f64 * f64) :=
  [(center 1, center 0, f64_of_Z 7);
   (center 1, center 0, f64_of_Z 9);
   (center 2, center 0, f64_of_Z 4)].

(** One event a quarter of a pixel from the origin in x, off the
    convention, next to a regular one: (0.25, 0.5, 7), (1.5, 0.5, 5). *)
Definition evs_off : list (f64 * f64 * f64) :=
  [(f64_dyadic 1 (-2), f64_dyadic 1 (-1), f64_of_Z 7);
   (f64_dyadic 3 (-1), f64_dyadic 1 (-1), f64_of_Z 5)].

(** Events with one coordinate left of the origin pixel:
    (-1.5, 0.5, 7), (2.5, 0.5, 8). *)
Definition evs_neg : list (f64 * f64 * f64) :=
  [(f64_dyadic (-3) (-1), f64_dyadic 1 (-1), f64_of_Z 7);
   (f64_dyadic 5 (-1), f64_dyadic 1 (-1), f64_of_Z 8)].

(** The image the code builds from them: the first event is written one
    column from the right edge. *)
Definition img_neg : ndarray2 f64 := Array2 1 3 [f64_zero; f64_of_Z 7; f64_of_Z 8].

(** An int64 image of shape (0, 5). *)
Definition empty05 : ndarray2 Z := Array2 0 5 [].

(** Two events on different pixels, and the same two swapped. *)
Definition evs_ab : list (f64 * f64 * f64) :=
  [(f64_dyadic 3 (-1), f64_dyadic 1 (-1), f64_of_Z 7);
   (f64_dyadic 1 (-1), f64_dyadic 1 (-1), f64_of_Z 4)].
Definition evs_ba : list (f64 * f64 * f64) :=
  [(f64_dyadic 1 (-1), f64_dyadic 1 (-1), f64_of_Z 4);
   (f64_dyadic 3 (-1), f64_dyadic 1 (-1), f64_of_Z 7)].

(** The float64 number next above -0.5: -0.5 + 2^-54, printed
    -0.49999999999999994. *)
Definition x_below : f64 := f64_dyadic (- (2 ^ 53 - 1)) (-54).


(** Hardware binary64 numbers on which the model's arithmetic is compared
    with the processor's: -0.5 + 2^-54, 0.25, 0.5, 1.5, 2^52 + 1,
    2^52 + 2, 2^53 + 2, 1e19, the least subnormal, the greatest finite
    number and its opposite. *)
Definition hardware_samples : list PrimFloat.float :=
  [(-0x1.fffffffffffffp-2)%float; 0.25%float; 0.5%float; 1.5%float;
   0x1.0000000000001p52%float; 0x1.0000000000002p52%float;
   0x1.0000000000001p53%float; 1e19%float; 0x1p-1074%float;
   0x1.fffffffffffffp1023%float; (-0x1.fffffffffffffp1023)%float].

(** Three integer frames, and a scan file with two scan entries and one
    other entry. *)
Definition frame11 : ndarray2 Z := Array2 1 1 [5%Z].
Definition frame22 : ndarray2 Z := Array2 2 2 [1; 2; 3; 4]%Z.
Definition frame12 : ndarray2 Z := Array2 1 2 [8; 9]%Z.
Definition nx_two_scans : list (string * result (list (ndarray2 Z))) :=
  [("scan_001"%string, Ok [frame11]);
   ("meta"%string, Raise IOError);
   ("scan_002"%string, Ok [frame22; frame12])].

(** * Properties *)

(** ** Rounding to 53 bits *)

Section Rounding.
Local Open Scope Z_scope.

Lemma ulp_exp_nonneg a : 0 <= ulp_exp a.
Proof. unfold ulp_exp. lia. Qed.

Lemma ulp_exp_mono a b : a <= b -> ulp_exp a <= ulp_exp b.
Proof. intros H. unfold ulp_exp. pose proof (Z.log2_le_mono a b H). lia. Qed.

Lemma pow2_pos k : 0 <= k -> 0 < 2 ^ k.
Proof. intros. apply Z.pow_pos_nonneg; lia. Qed.

Lemma round53_nat_cases a :
  let k := ulp_exp a in
  round53_nat a = (a / 2 ^ k) * 2 ^ k \/ round53_nat a = (a / 2 ^ k + 1) * 2 ^ k.
Proof. intros k. unfold round53_nat. fold k. destruct (_ || _); auto. Qed.

Lemma round53_nat_grid a : (2 ^ ulp_exp a | round53_nat a).
Proof.
  destruct (round53_nat_cases a) as [-> | ->]; apply Z.divide_factor_r.
Qed.

Lemma round53_nat_exact a : (2 ^ ulp_exp a | a) -> round53_nat a = a.
Proof.
  intros Hd. unfold round53_nat.
  assert (Hp : 0 < 2 ^ ulp_exp a) by (apply Z.pow_pos_nonneg; [lia | apply ulp_exp_nonneg]).
  assert (Hr : a mod 2 ^ ulp_exp a = 0) by (apply Z.mod_divide; [lia | exact Hd]).
  rewrite Hr. replace (2 ^ ulp_exp a <? 2 * 0) with false by (symmetry; apply Z.ltb_ge; lia).
  replace (2 ^ ulp_exp a =? 2 * 0) with false by (symmetry; apply Z.eqb_neq; lia).
  cbn [orb andb].
  pose proof (Z.div_mod a (2 ^ ulp_exp a)). lia.
Qed.

Lemma pow2_divide j k : 0 <= j <= k -> (2 ^ j | 2 ^ k).
Proof.
  intros H. exists (2 ^ (k - j)). rewrite <- Z.pow_add_r by lia. f_equal. lia.
Qed.

Lemma round53_nat_dyadic c j :
  0 <= c <= 2 ^ 53 -> 0 <= j -> round53_nat (c * 2 ^ j) = c * 2 ^ j.
Proof.
  intros Hc Hj. apply round53_nat_exact.
  destruct (Z.eq_dec c 0) as [-> | Hc0]; [rewrite Z.mul_0_l; apply Z.divide_0_r |].
  destruct (Z.eq_dec c (2 ^ 53)) as [-> | Hc53].
  - rewrite <- Z.pow_add_r by lia.
    unfold ulp_exp. rewrite Z.log2_pow2 by lia.
    apply pow2_divide. lia.
  - unfold ulp_exp. rewrite Z.log2_mul_pow2 by lia.
    assert (Z.log2 c < 53) by (apply Z.log2_lt_pow2; lia).
    apply Z.divide_mul_r. apply pow2_divide. lia.
Qed.

Lemma round53_nat_bracket a :
  0 <= a ->
  let k := ulp_exp a in
  (a / 2 ^ k) * 2 ^ k <= a < (a / 2 ^ k + 1) * 2 ^ k /\
  (a / 2 ^ k) * 2 ^ k <= round53_nat a <= (a / 2 ^ k + 1) * 2 ^ k /\
  a / 2 ^ k < 2 ^ 53 /\
  (0 < k -> 2 ^ 52 <= a / 2 ^ k).
Proof.
  intros Ha k.
  assert (Hk : 0 <= k) by apply ulp_exp_nonneg.
  assert (Hp : 0 < 2 ^ k) by (apply pow2_pos; exact Hk).
  pose proof (Z.div_mod a (2 ^ k)) as Hdm.
  pose proof (Z.mod_pos_bound a (2 ^ k) Hp) as Hmod.
  split; [lia |]. split.
  - destruct (round53_nat_cases a) as [-> | ->]; fold k; lia.
  - destruct (Z.eq_dec a 0) as [-> | Ha0].
    { rewrite Z.div_0_l by lia. split; [lia |]. unfold k, ulp_exp. simpl. lia. }
    pose proof (Z.log2_spec a) as Hlog.
    assert (Hl : 2 ^ Z.log2 a <= a < 2 ^ Z.succ (Z.log2 a)) by (apply Hlog; lia).
    pose proof (Z.log2_nonneg a) as Hln.
    split.
    + apply Z.div_lt_upper_bound; [lia |].
      rewrite <- Z.pow_add_r by lia.
      eapply Z.lt_le_trans; [apply Hl |].
      apply Z.pow_le_mono_r; [lia |]. unfold k, ulp_exp. lia.
    + intros Hkpos. apply Z.div_le_lower_bound; [lia |].
      rewrite Z.mul_comm, <- Z.pow_add_r by lia.
      eapply Z.le_trans; [| apply Hl].
      apply Z.pow_le_mono_r; [lia |]. unfold k, ulp_exp in *. lia.
Qed.

Lemma round53_nat_nonneg a : 0 <= a -> 0 <= round53_nat a.
Proof.
  intros Ha. destruct (round53_nat_bracket a Ha) as (_ & [Hlo _] & _).
  assert (0 <= a / 2 ^ ulp_exp a) by (apply Z.div_pos; [lia | apply pow2_pos, ulp_exp_nonneg]).
  pose proof (pow2_pos (ulp_exp a) (ulp_exp_nonneg a)). nia.
Qed.

Lemma round53_nat_idem a : 0 <= a -> round53_nat (round53_nat a) = round53_nat a.
Proof.
  intros Ha. destruct (round53_nat_bracket a Ha) as (_ & _ & Hq & _).
  assert (0 <= a / 2 ^ ulp_exp a) by (apply Z.div_pos; [lia | apply pow2_pos, ulp_exp_nonneg]).
  destruct (round53_nat_cases a) as [-> | ->];
    apply round53_nat_dyadic; try apply ulp_exp_nonneg; lia.
Qed.

(** A representable number at or above [a] is on the grid of [a]. *)
Lemma representable_on_grid a b :
  0 <= a <= b -> round53_nat b = b -> (2 ^ ulp_exp a | b).
Proof.
  intros Hab Hb. rewrite <- Hb.
  eapply Z.divide_trans; [| apply round53_nat_grid].
  apply pow2_divide. split; [apply ulp_exp_nonneg | apply ulp_exp_mono; lia].
Qed.

Lemma round53_nat_anchor_up a b :
  0 <= a <= b -> round53_nat b = b -> round53_nat a <= b.
Proof.
  intros Hab Hb.
  destruct (round53_nat_bracket a) as ([Hlo Hhi] & [_ Hup] & _); [lia |].
  set (k := ulp_exp a) in *.
  assert (Hp : 0 < 2 ^ k) by (apply pow2_pos, ulp_exp_nonneg).
  destruct (representable_on_grid a b Hab Hb) as [c Hc]. fold k in Hc.
  destruct (Z.eq_dec (a mod 2 ^ k) 0) as [Hr | Hr].
  - rewrite round53_nat_exact; [lia |]. fold k. apply Z.mod_divide; [lia | exact Hr].
  - assert (a / 2 ^ k * 2 ^ k < a).
    { pose proof (Z.div_mod a (2 ^ k)). pose proof (Z.mod_pos_bound a (2 ^ k) Hp). lia. }
    assert (a / 2 ^ k < c) by (apply Z.mul_lt_mono_pos_r with (2 ^ k); lia).
    assert ((a / 2 ^ k + 1) * 2 ^ k <= c * 2 ^ k)
      by (apply Z.mul_le_mono_nonneg_r; lia).
    lia.
Qed.

Lemma round53_nat_anchor_lo a b :
  0 <= b <= a -> round53_nat b = b -> b <= round53_nat a.
Proof.
  intros Hba Hb.
  destruct (round53_nat_bracket a) as ([Hlo Hhi] & [Hdn _] & _ & Hq); [lia |].
  set (k := ulp_exp a) in *.
  assert (Hk : 0 <= k) by apply ulp_exp_nonneg.
  assert (Hp : 0 < 2 ^ k) by (apply pow2_pos, Hk).
  destruct (Z.le_gt_cases b (a / 2 ^ k * 2 ^ k)) as [Hle | Hgt]; [lia |].
  exfalso.
  destruct (Z.eq_dec k 0) as [Hk0 | Hk0].
  { rewrite Hk0 in *. change (2 ^ 0) with 1 in *. rewrite Z.div_1_r in *. lia. }
  assert (H52 : 2 ^ 52 <= a / 2 ^ k) by (apply Hq; lia).
  assert (Hbig : 2 ^ (52 + k) <= b).
  { rewrite Z.pow_add_r by lia. nia. }
  assert (Hlb : 52 + k <= Z.log2 b) by (apply Z.log2_le_pow2; lia).
  assert (Hgrid : (2 ^ k | b)).
  { rewrite <- Hb. eapply Z.divide_trans; [| apply round53_nat_grid].
    apply pow2_divide. unfold ulp_exp. lia. }
  destruct Hgrid as [c Hc].
  assert (a / 2 ^ k < c) by (apply Z.mul_lt_mono_pos_r with (2 ^ k); lia).
  assert (c < a / 2 ^ k + 1) by (apply Z.mul_lt_mono_pos_r with (2 ^ k); lia).
  lia.
Qed.

Lemma round53_nat_0 : round53_nat 0 = 0.
Proof. reflexivity. Qed.

Lemma round53_opp n : round53 (- n) = - round53 n.
Proof. unfold round53. rewrite Z.sgn_opp, Z.abs_opp. lia. Qed.

Lemma round53_nonneg n : 0 <= n -> round53 n = round53_nat n.
Proof.
  intros Hn. unfold round53. destruct (Z.eq_dec n 0) as [-> | H0]; [reflexivity |].
  rewrite Z.sgn_pos by lia. rewrite Z.abs_eq by lia. lia.
Qed.

Lemma round53_neg n : n <= 0 -> round53 n = - round53_nat (- n).
Proof.
  intros Hn. rewrite <- (Z.opp_involutive n) at 1. rewrite round53_opp.
  rewrite round53_nonneg by lia. reflexivity.
Qed.

Lemma round53_idem n : round53 (round53 n) = round53 n.
Proof.
  destruct (Z.le_gt_cases 0 n) as [Hn | Hn].
  - rewrite (round53_nonneg n Hn).
    rewrite round53_nonneg by (apply round53_nat_nonneg, Hn).
    apply round53_nat_idem, Hn.
  - rewrite (round53_neg n) by lia. rewrite round53_opp. f_equal.
    rewrite round53_nonneg by (apply round53_nat_nonneg; lia).
    apply round53_nat_idem. lia.
Qed.

Lemma round53_dyadic c j :
  - 2 ^ 53 <= c <= 2 ^ 53 -> 0 <= j -> round53 (c * 2 ^ j) = c * 2 ^ j.
Proof.
  intros Hc Hj. pose proof (pow2_pos j Hj) as Hp.
  destruct (Z.le_gt_cases 0 c) as [H0 | H0].
  - rewrite round53_nonneg by nia. apply round53_nat_dyadic; lia.
  - rewrite round53_neg by nia.
    replace (- (c * 2 ^ j)) with ((- c) * 2 ^ j) by lia.
    rewrite round53_nat_dyadic by lia. lia.
Qed.

Lemma round53_anchor_up a b : a <= b -> round53 b = b -> round53 a <= b.
Proof.
  intros Hab Hb. destruct (Z.le_gt_cases 0 a) as [Ha | Ha].
  - rewrite round53_nonneg in Hb by lia. rewrite round53_nonneg by lia.
    apply round53_nat_anchor_up; [lia | exact Hb].
  - rewrite (round53_neg a) by lia.
    pose proof (round53_nat_nonneg (- a)) as Hr.
    destruct (Z.le_gt_cases 0 b) as [Hb0 | Hb0]; [lia |].
    rewrite round53_neg in Hb by lia.
    assert (- b <= round53_nat (- a)); [| lia].
    apply round53_nat_anchor_lo; lia.
Qed.

Lemma round53_anchor_lo a b : b <= a -> round53 b = b -> b <= round53 a.
Proof.
  intros Hba Hb.
  assert (round53 (- a) <= - b).
  { apply round53_anchor_up; [lia |]. rewrite round53_opp, Hb. reflexivity. }
  rewrite round53_opp in H. lia.
Qed.


Lemma Finite_eq n m (Hn : is_f64 n = true) (Hm : is_f64 m = true) :
  n = m -> Finite n Hn = Finite m Hm.
Proof. intros ->. f_equal. apply proof_irrel. Qed.

Lemma finite_or_ok r other (ok : is_f64 r = true) : finite_or r other = Finite r ok.
Proof.
  unfold finite_or.
  assert (Hgen : forall b (e : is_f64 r = b), b = true ->
            (if b as b0 return is_f64 r = b0 -> f64
             then fun ok0 => Finite r ok0 else fun _ => other) e = Finite r ok).
  { intros b e Hb. destruct b; [apply Finite_eq; reflexivity | discriminate]. }
  apply (Hgen _ eq_refl ok).
Qed.

Lemma is_f64_round z : Z.abs (round53 z) < 2 ^ 2098 -> is_f64 (round53 z) = true.
Proof.
  intros Hb. unfold is_f64. rewrite round53_idem, Z.eqb_refl.
  apply Z.ltb_lt in Hb. rewrite Hb. reflexivity.
Qed.

Lemma f64_round_exact n (ok : is_f64 n = true) : f64_round n = Finite n ok.
Proof.
  unfold f64_round.
  assert (Hr : round53 n = n).
  { unfold is_f64 in ok. apply andb_true_iff in ok as [H _]. apply Z.eqb_eq, H. }
  cbv zeta. rewrite Hr. apply finite_or_ok.
Qed.

End Rounding.

(** ** Binary64 numbers the module computes *)

Section Binary64.
Local Open Scope Z_scope.

Lemma units_per_one_eq : Z.pos units_per_one = 2 ^ 1074.
Proof. vm_compute. reflexivity. Qed.

Lemma is_f64_exact n : is_f64 n = true -> round53 n = n /\ Z.abs n < 2 ^ 2098.
Proof.
  unfold is_f64. intros H. apply andb_true_iff in H as [H1 H2].
  split; [apply Z.eqb_eq, H1 | apply Z.ltb_lt, H2].
Qed.

Lemma is_f64_intro n : round53 n = n -> Z.abs n < 2 ^ 2098 -> is_f64 n = true.
Proof.
  intros H1 H2. unfold is_f64. apply andb_true_iff.
  split; [apply Z.eqb_eq, H1 | apply Z.ltb_lt, H2].
Qed.

Lemma is_f64_dyadic c j :
  - 2 ^ 53 <= c <= 2 ^ 53 -> 0 <= j <= 2044 -> is_f64 (c * 2 ^ j) = true.
Proof.
  intros Hc Hj. apply is_f64_intro; [apply round53_dyadic; lia |].
  assert (Hp : 0 < 2 ^ j) by (apply pow2_pos; lia).
  rewrite Z.abs_mul, (Z.abs_eq (2 ^ j)) by lia.
  assert (Hj' : 2 ^ j <= 2 ^ 2044) by (apply Z.pow_le_mono_r; lia).
  assert (Hle : Z.abs c * 2 ^ j <= 2 ^ 53 * 2 ^ 2044)
    by (apply Z.mul_le_mono_nonneg; lia).
  eapply Z.le_lt_trans; [exact Hle |].
  rewrite <- Z.pow_add_r by lia. apply Z.pow_lt_mono_r; lia.
Qed.

Lemma f64_round_dyadic c j :
  - 2 ^ 53 <= c <= 2 ^ 53 -> 0 <= j <= 2044 ->
  exists ok, f64_round (c * 2 ^ j) = Finite (c * 2 ^ j) ok.
Proof.
  intros Hc Hj. exists (is_f64_dyadic c j Hc Hj). apply f64_round_exact.
Qed.

Lemma f64_half_eq : exists ok, f64_half = Finite (2 ^ 1073) ok.
Proof.
  assert (ok : is_f64 (2 ^ 1073) = true) by (vm_compute; reflexivity).
  exists ok. apply (f64_round_exact (2 ^ 1073) ok).
Qed.

Lemma f64_of_Z_exact z :
  - 2 ^ 53 <= z <= 2 ^ 53 -> exists ok, f64_of_Z z = Finite (z * 2 ^ 1074) ok.
Proof. intros Hz. apply f64_round_dyadic; lia. Qed.

Lemma center_eq (k : nat) :
  Z.of_nat k < 2 ^ 52 -> exists ok, center k = Finite (center_units k) ok.
Proof.
  intros Hk. unfold center, to_float64, int_dtype.
  destruct (f64_of_Z_exact (Z.of_nat k)) as [ok1 ->]; [lia |].
  destruct f64_half_eq as [ok2 ->]. cbn [f64_add].
  replace (Z.of_nat k * 2 ^ 1074 + 2 ^ 1073) with (center_units k).
  - apply f64_round_dyadic; lia.
  - unfold center_units. change (2 ^ 1074) with (2 * 2 ^ 1073). lia.
Qed.

Lemma sub_half_eq n ok : f64_sub (Finite n ok) f64_half = f64_round (n - 2 ^ 1073).
Proof. destruct f64_half_eq as [ok2 ->]. reflexivity. Qed.

Lemma astype_int64_finite n ok :
  - 2 ^ 63 <= Z.quot n (2 ^ 1074) < 2 ^ 63 ->
  astype_int64 (Finite n ok) = Z.quot n (2 ^ 1074).
Proof.
  intros [H1 H2]. cbn [astype_int64]. cbv zeta.
  rewrite (proj2 (Z.leb_le _ _) H1), (proj2 (Z.ltb_lt _ _) H2). reflexivity.
Qed.

Lemma index_of_center (k : nat) :
  Z.of_nat k < 2 ^ 52 -> index_of (center k) = Z.of_nat k.
Proof.
  intros Hk. unfold index_of. destruct (center_eq k Hk) as [ok ->].
  rewrite sub_half_eq.
  replace (center_units k - 2 ^ 1073) with (Z.of_nat k * 2 ^ 1074)
    by (unfold center_units; change (2 ^ 1074) with (2 * 2 ^ 1073); lia).
  destruct (f64_round_dyadic (Z.of_nat k) 1074) as [ok' ->]; [lia | lia |].
  rewrite astype_int64_finite; rewrite Z.quot_mul by lia; lia.
Qed.

Lemma has_value_center (k : nat) :
  Z.of_nat k < 2 ^ 52 -> has_value (center k) (inject_Z (Z.of_nat k) + half).
Proof.
  intros Hk. destruct (center_eq k Hk) as [ok ->]. cbn [has_value].
  unfold Qeq, Qplus, half, inject_Z. cbn [Qnum Qden].
  rewrite units_per_one_eq. unfold center_units.
  change (Z.pos (1 * 2)) with 2. change (2 ^ 1074) with (2 * 2 ^ 1073). lia.
Qed.

(** A count with an odd factor of 2^53 or more is not a binary64 number. *)
Lemma odd_significand_bound m j :
  0 < m -> Z.odd m = true -> 0 <= j -> round53 (m * 2 ^ j) = m * 2 ^ j ->
  m < 2 ^ 53.
Proof.
  intros Hm Hodd Hj Hr.
  assert (Hp : 0 < 2 ^ j) by (apply pow2_pos; lia).
  rewrite round53_nonneg in Hr by nia.
  assert (Hg : (2 ^ ulp_exp (m * 2 ^ j) | m * 2 ^ j))
    by (rewrite <- Hr at 2; apply round53_nat_grid).
  destruct (Z.le_gt_cases (ulp_exp (m * 2 ^ j)) j) as [Hle | Hgt].
  - unfold ulp_exp in Hle. rewrite Z.log2_mul_pow2 in Hle by lia.
    apply Z.log2_lt_pow2; lia.
  - exfalso.
    assert (Hd : (2 ^ (j + 1) | m * 2 ^ j)).
    { eapply Z.divide_trans; [| exact Hg]. apply pow2_divide. lia. }
    destruct Hd as [c Hc]. rewrite Z.pow_add_r in Hc by lia.
    change (2 ^ 1) with 2 in Hc.
    assert (Hm2 : m = 2 * c) by nia.
    rewrite Hm2, Z.odd_mul in Hodd. discriminate.
Qed.

Lemma pixel_center_inv (v : f64) :
  pixel_center v <-> exists k : nat, Z.of_nat k < 2 ^ 52 /\ v = center k.
Proof.
  split.
  - intros [k Hv]. destruct v as [n ok | |]; try contradiction.
    cbn [has_value] in Hv. unfold Qeq, Qplus, half, inject_Z in Hv.
    cbn [Qnum Qden] in Hv. rewrite units_per_one_eq in Hv.
    change (Z.pos (1 * 2)) with 2 in Hv.
    change (2 ^ 1074) with (2 * 2 ^ 1073) in Hv.
    assert (Hn : n = center_units k) by (unfold center_units; lia).
    destruct (is_f64_exact n ok) as [Hr _].
    assert (Hk : 2 * Z.of_nat k + 1 < 2 ^ 53).
    { apply (odd_significand_bound _ 1073); [lia | | lia |].
      - rewrite Z.add_comm, Z.odd_add_mul_2. reflexivity.
      - rewrite Hn in Hr. exact Hr. }
    exists k. split; [lia |].
    destruct (center_eq k) as [ok' ->]; [lia |].
    apply Finite_eq, Hn.
  - intros (k & Hk & ->). exists k. apply has_value_center, Hk.
Qed.

Lemma floor_sub_half n ok :
  Qfloor (f64_real (Finite n ok) - half) = (n - 2 ^ 1073) / 2 ^ 1074.
Proof.
  cbn [f64_real]. unfold Qfloor, Qminus, Qplus, Qopp, half. cbn [Qnum Qden].
  rewrite Pos2Z.inj_mul, units_per_one_eq.
  change (Z.pos 2) with 2.
  replace (n * 2 + - (1) * 2 ^ 1074) with (2 * (n - 2 ^ 1073))
    by (change (2 ^ 1074) with (2 * 2 ^ 1073); lia).
  rewrite (Z.mul_comm (2 ^ 1074) 2).
  apply Z.div_mul_cancel_l; lia.
Qed.

Lemma floor_center (k : nat) :
  Z.of_nat k < 2 ^ 52 -> Qfloor (f64_real (center k) - half) = Z.of_nat k.
Proof.
  intros Hk. destruct (center_eq k Hk) as [ok ->]. rewrite floor_sub_half.
  replace (center_units k - 2 ^ 1073) with (Z.of_nat k * 2 ^ 1074)
    by (unfold center_units; change (2 ^ 1074) with (2 * 2 ^ 1073); lia).
  apply Z.div_mul. lia.
Qed.

End Binary64.
(** ** The numpy fragment *)

Lemma foldl_max_is_max (l : list Z) :
  forall x, is_max (foldl Z.max x l) (x :: l).
Proof.
  induction l as [|y l IH]; intros x; simpl.
  - split; [left | intros z Hz; apply list_elem_of_singleton in Hz; lia].
  - destruct (IH (Z.max x y)) as [Hin Hub]. split.
    + apply elem_of_cons in Hin as [Hm | Hin].
      * rewrite Hm. destruct (Z.max_spec x y) as [[_ ->] | [_ ->]].
        -- right; left.
        -- left.
      * right; right; exact Hin.
    + intros z Hz.
      assert (Hmx : (Z.max x y <= foldl Z.max (Z.max x y) l)%Z)
        by (apply Hub; left).
      apply elem_of_cons in Hz as [-> | Hz]; [lia |].
      apply elem_of_cons in Hz as [-> | Hz]; [lia |].
      apply Hub; right; exact Hz.
Qed.

Lemma amax_cons (i : Z) (v : list Z) :
  exists m, amax (i :: v) = Ok m /\ is_max m (i :: v).
Proof. exists (foldl Z.max i v). split; [reflexivity | apply foldl_max_is_max]. Qed.

Lemma is_max_unique (l : list Z) (m m' : Z) : is_max m l -> is_max m' l -> m = m'.
Proof. intros [H1 H2] [H3 H4]. apply H2 in H3. apply H4 in H1. lia. Qed.

Lemma wrap_index_in_range (n : nat) (i : Z) :
  (0 <= i < Z.of_nat n)%Z -> wrap_index n i = Ok (Z.to_nat i).
Proof.
  intros [H0 H1]. unfold wrap_index.
  rewrite (proj2 (Z.leb_le 0 i) H0), (proj2 (Z.ltb_lt i _) H1). reflexivity.
Qed.

Lemma setitem_in_range (a : ndarray2 f64) (i j : Z) (v : f64) :
  (0 <= i < Z.of_nat (shape0 a))%Z -> (0 <= j < Z.of_nat (shape1 a))%Z ->
  setitem a i j v =
  Ok (Array2 (shape0 a) (shape1 a)
             (<[Z.to_nat i * shape1 a + Z.to_nat j := v]> (flat a))).
Proof.
  intros Hi Hj. unfold setitem.
  rewrite (wrap_index_in_range _ _ Hi), (wrap_index_in_range _ _ Hj).
  reflexivity.
Qed.

Lemma flat_index_inj (C r c r' c' : nat) :
  c < C -> c' < C -> r * C + c = r' * C + c' -> r = r' /\ c = c'.
Proof.
  intros Hc Hc' H.
  destruct (Nat.lt_trichotomy r r') as [Hlt | [-> | Hlt]].
  - assert (S r * C <= r' * C) by (apply Nat.mul_le_mono_r; lia). simpl in *. lia.
  - split; [reflexivity | lia].
  - assert (S r' * C <= r * C) by (apply Nat.mul_le_mono_r; lia). simpl in *. lia.
Qed.

Lemma flat_index_lt (R C r c : nat) : r < R -> c < C -> r * C + c < R * C.
Proof.
  intros Hr Hc.
  assert (S r * C <= R * C) by (apply Nat.mul_le_mono_r; lia). simpl in *. lia.
Qed.

Lemma setitem_fancy_in_range (w : list (Z * Z * f64)) :
  forall a : ndarray2 f64,
    well_shaped a ->
    Forall (fun t => (0 <= t.1.1 < Z.of_nat (shape0 a))%Z /\
                     (0 <= t.1.2 < Z.of_nat (shape1 a))%Z) w ->
    exists a', setitem_fancy a w = Ok a' /\
      shape0 a' = shape0 a /\ shape1 a' = shape1 a /\ well_shaped a' /\
      forall r c, r < shape0 a -> c < shape1 a ->
        cell a' r c =
        match last_write w (Z.of_nat r) (Z.of_nat c) with
        | Some v => Some v
        | None => cell a r c
        end.
Proof.
  induction w as [|[[i j] v] w IH]; intros a Hwf Hall.
  - exists a. repeat split; try reflexivity; assumption.
  - apply Forall_cons in Hall as [[Hi Hj] Hall]. simpl in Hi, Hj.
    cbn [setitem_fancy]. rewrite (setitem_in_range _ _ _ _ Hi Hj).
    set (a1 := Array2 _ _ _).
    assert (Hwf1 : well_shaped a1).
    { unfold well_shaped, a1; simpl. rewrite length_insert. exact Hwf. }
    destruct (IH a1 Hwf1 Hall) as (a' & Hrun & Hs0 & Hs1 & Hwf' & Hcell).
    exists a'. split; [exact Hrun |]. repeat split; try assumption.
    intros r c Hr Hc. rewrite (Hcell r c Hr Hc). cbn [last_write].
    destruct (last_write w (Z.of_nat r) (Z.of_nat c)) as [v'|]; [reflexivity |].
    unfold cell, a1; simpl.
    destruct (decide (i = Z.of_nat r /\ j = Z.of_nat c)) as [[-> ->] | Hne].
    + rewrite !Nat2Z.id. apply list_lookup_insert_eq.
      rewrite Hwf. apply flat_index_lt; assumption.
    + apply list_lookup_insert_ne. intros Heq.
      apply flat_index_inj in Heq as [Hr' Hc']; [| lia | lia].
      apply Hne. split; lia.
Qed.

(** ** Events to image *)

Lemma yind_eq (evs : list (f64 * f64 * f64)) :
  astype_int (sub_scalar (col1 evs) f64_half) = trunc_row <$> evs.
Proof.
  unfold astype_int, sub_scalar, col1. rewrite <- !list_fmap_compose. reflexivity.
Qed.

Lemma xind_eq (evs : list (f64 * f64 * f64)) :
  astype_int (sub_scalar (col0 evs) f64_half) = trunc_col <$> evs.
Proof.
  unfold astype_int, sub_scalar, col0. rewrite <- !list_fmap_compose. reflexivity.
Qed.

Lemma zip_indices_eq (evs : list (f64 * f64 * f64)) :
  zip (zip (trunc_row <$> evs) (trunc_col <$> evs)) (col2 evs) = writes evs.
Proof.
  unfold writes, col2. induction evs as [|e evs IH]; [reflexivity |].
  csimpl. rewrite IH. reflexivity.
Qed.

Lemma last_write_none (evs : list (f64 * f64 * f64)) (r c : nat) :
  (forall e, e ∈ evs -> ~ lands e r c) ->
  last_write (writes evs) (Z.of_nat r) (Z.of_nat c) = None.
Proof.
  unfold writes. induction evs as [|e evs IH]; intros Hno; [reflexivity |].
  csimpl. rewrite IH by (intros e' He'; apply Hno; right; exact He').
  destruct (decide _) as [Hl | _]; [| reflexivity].
  exfalso. apply (Hno e); [left | exact Hl].
Qed.

Lemma last_write_last (evs : list (f64 * f64 * f64)) (r c : nat) :
  forall i e,
    evs !! i = Some e -> lands e r c ->
    (forall j e', i < j -> evs !! j = Some e' -> ~ lands e' r c) ->
    last_write (writes evs) (Z.of_nat r) (Z.of_nat c) = Some e.2.
Proof.
  unfold writes. induction evs as [|e0 evs IH]; intros i e Hi Hl Hlater.
  - discriminate Hi.
  - csimpl. destruct i as [|i].
    + injection Hi as ->.
      fold (writes evs). rewrite last_write_none.
      * destruct (decide _) as [_ | Hn]; [reflexivity | exfalso; apply Hn, Hl].
      * intros e' He'. apply list_elem_of_lookup_1 in He' as [j Hj].
        apply (Hlater (S j) e'); [lia | exact Hj].
    + rewrite (IH i e Hi Hl); [reflexivity |].
      intros j e' Hij Hj. apply (Hlater (S j) e'); [lia | exact Hj].
Qed.

Lemma photon_events_to_image_in_range (evs : list (f64 * f64 * f64)) :
  evs <> [] ->
  Forall (fun e => (0 <= trunc_row e)%Z /\ (0 <= trunc_col e)%Z) evs ->
  exists img,
    photon_events_to_image evs = Ok img /\ well_shaped img /\
    is_max (Z.of_nat (shape0 img) - 1) (trunc_row <$> evs) /\
    is_max (Z.of_nat (shape1 img) - 1) (trunc_col <$> evs) /\
    forall r c, r < shape0 img -> c < shape1 img ->
      cell img r c =
      Some (default f64_zero (last_write (writes evs) (Z.of_nat r) (Z.of_nat c))).
Proof.
  intros Hne Hpos. unfold photon_events_to_image.
  rewrite yind_eq, xind_eq, zip_indices_eq.
  destruct evs as [|e evs]; [congruence |].
  destruct (amax_cons (trunc_row e) (trunc_row <$> evs)) as (ym & Hym & Hymax).
  destruct (amax_cons (trunc_col e) (trunc_col <$> evs)) as (xm & Hxm & Hxmax).
  change (trunc_row <$> e :: evs) with (trunc_row e :: (trunc_row <$> evs)).
  change (trunc_col <$> e :: evs) with (trunc_col e :: (trunc_col <$> evs)).
  rewrite Hym, Hxm. cbn [mbind result_bind].
  assert (Hy0 : (0 <= ym)%Z).
  { destruct Hymax as [_ Hub]. apply Forall_cons in Hpos as [[H0 _] _].
    assert (trunc_row e <= ym)%Z by (apply Hub; left). lia. }
  assert (Hx0 : (0 <= xm)%Z).
  { destruct Hxmax as [_ Hub]. apply Forall_cons in Hpos as [[_ H0] _].
    assert (trunc_col e <= xm)%Z by (apply Hub; left). lia. }
  unfold zeros.
  replace ((ym + 1 <? 0)%Z || (xm + 1 <? 0)%Z) with false
    by (symmetry; apply orb_false_iff; split; apply Z.ltb_ge; lia).
  cbn [mbind result_bind].
  set (z := Array2 _ _ _).
  assert (Hwfz : well_shaped z)
    by (unfold well_shaped, z; simpl; apply length_replicate).
  destruct (setitem_fancy_in_range (writes (e :: evs)) z Hwfz)
    as (img & Hrun & Hs0 & Hs1 & Hwf & Hcell).
  { unfold writes. apply Forall_fmap, Forall_forall. intros e' He'. simpl.
    rewrite Forall_forall in Hpos. destruct (Hpos e' He') as [Hr Hc].
    destruct Hymax as [_ Hyub]. destruct Hxmax as [_ Hxub].
    assert (trunc_row e' <= ym)%Z.
    { apply Hyub. change (trunc_row e' ∈ trunc_row <$> e :: evs).
      apply list_elem_of_fmap_2, He'. }
    assert (trunc_col e' <= xm)%Z.
    { apply Hxub. change (trunc_col e' ∈ trunc_col <$> e :: evs).
      apply list_elem_of_fmap_2, He'. }
    lia. }
  exists img. split; [exact Hrun |]. split; [exact Hwf |].
  rewrite Hs0, Hs1. unfold z at 1 2 3 4; cbn [shape0 shape1].
  replace (Z.of_nat (Z.to_nat (ym + 1)) - 1)%Z with ym by lia.
  replace (Z.of_nat (Z.to_nat (xm + 1)) - 1)%Z with xm by lia.
  split; [exact Hymax |]. split; [exact Hxmax |].
  intros r c Hr Hc. rewrite (Hcell r c Hr Hc).
  destruct (last_write _ _ _); [reflexivity |].
  unfold cell, z; cbn [flat shape1]. apply lookup_replicate_2.
  apply flat_index_lt; assumption.
Qed.

(** ** Image to events *)

Lemma length_mjoin_rows {A} (C : nat) (ls : list (list A)) :
  Forall (fun l => length l = C) ls -> length (mjoin ls) = length ls * C.
Proof.
  induction 1 as [|l ls Hl _ IH]; [reflexivity |].
  csimpl. rewrite length_app, IH, Hl. reflexivity.
Qed.

Lemma lookup_mjoin_rows {A} (C : nat) (ls : list (list A)) :
  Forall (fun l => length l = C) ls ->
  forall r c, c < C -> mjoin ls !! (r * C + c) = ls !! r ≫= (fun l => l !! c).
Proof.
  induction 1 as [|l ls Hl _ IH]; intros r c Hc.
  - rewrite !lookup_nil. reflexivity.
  - csimpl. destruct r as [|r].
    + simpl. apply lookup_app_l. lia.
    + rewrite lookup_app_r by (simpl; lia).
      replace (S r * C + c - length l) with (r * C + c) by (simpl; lia).
      apply IH, Hc.
Qed.

Lemma length_arange (n : nat) : length (arange n) = n.
Proof. unfold arange. rewrite length_fmap. apply length_seq. Qed.

Lemma lookup_arange (n k : nat) : k < n -> arange n !! k = Some (Z.of_nat k).
Proof.
  intros Hk. unfold arange. rewrite list_lookup_fmap, lookup_seq_lt by exact Hk.
  reflexivity.
Qed.

Lemma length_centers (n : nat) : length (add_scalar (arange n) f64_half) = n.
Proof.
  unfold add_scalar, astype_float64. rewrite !length_fmap. apply length_arange.
Qed.

Lemma lookup_centers (n k : nat) :
  k < n -> add_scalar (arange n) f64_half !! k = Some (center k).
Proof.
  intros Hk. unfold add_scalar, astype_float64.
  rewrite !list_lookup_fmap, lookup_arange by exact Hk. reflexivity.
Qed.

Lemma length_image_to_photon_events {A} `{DType A} (image : ndarray2 A) :
  well_shaped image ->
  length (image_to_photon_events image) = shape0 image * shape1 image.
Proof.
  intros Hwf. unfold image_to_photon_events, meshgrid, vstack3_transpose, ravel.
  cbn [flat]. rewrite !length_zip_with.
  rewrite !(length_mjoin_rows (shape1 image));
    try (apply Forall_fmap, Forall_forall; intros y _; simpl;
         rewrite ?length_replicate; apply length_centers).
  unfold astype_float64. rewrite !length_fmap, length_centers, Hwf. lia.
Qed.

Lemma lookup_image_to_photon_events {A} `{DType A} (image : ndarray2 A) (r c : nat) :
  well_shaped image -> r < shape0 image -> c < shape1 image ->
  exists v, cell image r c = Some v /\
    image_to_photon_events image !! (r * shape1 image + c) =
    Some (center c, center r, to_float64 v).
Proof.
  intros Hwf Hr Hc.
  assert (Hlt : r * shape1 image + c < length (flat image))
    by (rewrite Hwf; apply flat_index_lt; assumption).
  destruct (lookup_lt_is_Some_2 _ _ Hlt) as [v Hv].
  exists v. split; [exact Hv |].
  unfold image_to_photon_events, meshgrid, vstack3_transpose, ravel. cbn [flat].
  rewrite !lookup_zip_with.
  rewrite !(lookup_mjoin_rows (shape1 image)); try exact Hc;
    try (apply Forall_fmap, Forall_forall; intros y _; simpl;
         rewrite ?length_replicate; apply length_centers).
  rewrite !list_lookup_fmap, (lookup_centers _ _ Hr). csimpl.
  rewrite (lookup_centers _ _ Hc). csimpl.
  rewrite lookup_replicate_2 by (rewrite length_centers; exact Hc). csimpl.
  unfold astype_float64. rewrite list_lookup_fmap, Hv. reflexivity.
Qed.

(** Every event of a listing sits at its own flat position and, when the
    pixel centers are binary64 numbers, is sent back to its own cell. *)
Lemma image_event_form {A} `{DType A} (image : ndarray2 A) (i : nat)
    (e : f64 * f64 * f64) :
  well_shaped image ->
  image_to_photon_events image !! i = Some e ->
  exists r c v, r < shape0 image /\ c < shape1 image /\
    i = r * shape1 image + c /\ flat image !! i = Some v /\
    e = (center c, center r, to_float64 v).
Proof.
  intros Hwf Hi.
  assert (Hlt : i < shape0 image * shape1 image).
  { rewrite <- (length_image_to_photon_events image Hwf).
    apply lookup_lt_Some with e. exact Hi. }
  assert (HC : shape1 image <> 0) by (intros H0; rewrite H0 in Hlt; lia).
  assert (Hr : i / shape1 image < shape0 image)
    by (apply Nat.Div0.div_lt_upper_bound; lia).
  assert (Hc : i mod shape1 image < shape1 image)
    by (apply Nat.mod_upper_bound; exact HC).
  assert (Hsplit : i = i / shape1 image * shape1 image + i mod shape1 image)
    by (rewrite (Nat.div_mod i (shape1 image) HC) at 1; lia).
  destruct (lookup_image_to_photon_events image _ _ Hwf Hr Hc) as (v & Hv & Hev).
  rewrite <- Hsplit in Hev. rewrite Hev in Hi. injection Hi as <-.
  exists (i / shape1 image), (i mod shape1 image), v.
  repeat split; try assumption.
  unfold cell in Hv. rewrite <- Hsplit in Hv. exact Hv.
Qed.

Lemma image_event_inv {A} `{DType A} (image : ndarray2 A) (i : nat)
    (e : f64 * f64 * f64) :
  well_shaped image -> indexable image ->
  image_to_photon_events image !! i = Some e ->
  exists r c v, r < shape0 image /\ c < shape1 image /\
    i = r * shape1 image + c /\
    trunc_row e = Z.of_nat r /\ trunc_col e = Z.of_nat c /\
    flat image !! i = Some v /\ e.2 = to_float64 v.
Proof.
  intros Hwf [Hrows Hcols] Hi.
  destruct (image_event_form image i e Hwf Hi)
    as (r & c & v & Hr & Hc & Hsplit & Hv & ->).
  exists r, c, v. repeat split; try assumption.
  - unfold trunc_row; simpl. apply index_of_center. lia.
  - unfold trunc_col; simpl. apply index_of_center. lia.
Qed.

(** ** The reconstruction, cell by cell *)

Lemma photon_events_to_image_lands (evs : list (f64 * f64 * f64)) :
  evs <> [] ->
  Forall (fun e => (0 <= trunc_row e)%Z /\ (0 <= trunc_col e)%Z) evs ->
  exists img,
    photon_events_to_image evs = Ok img /\ well_shaped img /\
    is_max (Z.of_nat (shape0 img) - 1) (trunc_row <$> evs) /\
    is_max (Z.of_nat (shape1 img) - 1) (trunc_col <$> evs) /\
    forall r c, r < shape0 img -> c < shape1 img ->
      ((forall e, e ∈ evs -> ~ lands e r c) -> cell img r c = Some f64_zero) /\
      (forall i e, evs !! i = Some e -> lands e r c ->
         (forall j e', i < j -> evs !! j = Some e' -> ~ lands e' r c) ->
         cell img r c = Some e.2).
Proof.
  intros Hne Hpos.
  destruct (photon_events_to_image_in_range evs Hne Hpos)
    as (img & Hrun & Hwf & Hmr & Hmc & Hcell).
  exists img. repeat (split; [assumption |]).
  intros r c Hr Hc. rewrite (Hcell r c Hr Hc). split.
  - intros Hno. rewrite (last_write_none evs r c Hno). reflexivity.
  - intros i e Hi Hl Hlater.
    rewrite (last_write_last evs r c i e Hi Hl Hlater). reflexivity.
Qed.

Lemma roundtrip_image {A} `{DType A} (image : ndarray2 A) :
  well_shaped image -> 1 <= shape0 image * shape1 image -> indexable image ->
  photon_events_to_image (image_to_photon_events image) =
  Ok (image_astype_float64 image).
Proof.
  intros Hwf Hsize Hidx.
  set (evs := image_to_photon_events image).
  assert (Hlen : length evs = shape0 image * shape1 image)
    by apply (length_image_to_photon_events image Hwf).
  assert (HR : 1 <= shape0 image) by lia.
  assert (HC : 1 <= shape1 image) by lia.
  destruct (photon_events_to_image_lands evs)
    as (img & Hrun & Hwf' & Hmr & Hmc & Hcell).
  { intros Hnil. rewrite Hnil in Hlen. simpl in Hlen. lia. }
  { apply Forall_lookup. intros i e Hi.
    destruct (image_event_inv image i e Hwf Hidx Hi)
      as (r & c & v & _ & _ & _ & Hr & Hc & _).
    lia. }
  assert (Hs0 : shape0 img = shape0 image).
  { assert (Hm : is_max (Z.of_nat (shape0 image) - 1) (trunc_row <$> evs)).
    { split.
      - destruct (lookup_image_to_photon_events image (shape0 image - 1) 0 Hwf)
          as (v & _ & Hev); [lia | lia |].
        apply list_elem_of_fmap. eexists. split; [| eapply list_elem_of_lookup_2, Hev].
        unfold trunc_row; simpl. rewrite index_of_center by (destruct Hidx; lia). lia.
      - intros z Hz. apply list_elem_of_fmap in Hz as (e & -> & He).
        apply list_elem_of_lookup_1 in He as [i Hi].
        destruct (image_event_inv image i e Hwf Hidx Hi)
          as (r & c & v & Hr & _ & _ & Hrow & _).
        lia. }
    pose proof (is_max_unique _ _ _ Hmr Hm). lia. }
  assert (Hs1 : shape1 img = shape1 image).
  { assert (Hm : is_max (Z.of_nat (shape1 image) - 1) (trunc_col <$> evs)).
    { split.
      - destruct (lookup_image_to_photon_events image 0 (shape1 image - 1) Hwf)
          as (v & _ & Hev); [lia | lia |].
        apply list_elem_of_fmap. eexists. split; [| eapply list_elem_of_lookup_2, Hev].
        unfold trunc_col; simpl. rewrite index_of_center by (destruct Hidx; lia). lia.
      - intros z Hz. apply list_elem_of_fmap in Hz as (e & -> & He).
        apply list_elem_of_lookup_1 in He as [i Hi].
        destruct (image_event_inv image i e Hwf Hidx Hi)
          as (r & c & v & _ & Hc & _ & _ & Hcol & _).
        lia. }
    pose proof (is_max_unique _ _ _ Hmc Hm). lia. }
  assert (Hflat : flat img = astype_float64 (flat image)).
  { apply list_eq. intros i. unfold astype_float64. rewrite list_lookup_fmap.
    destruct (decide (i < shape0 image * shape1 image)) as [Hi | Hi].
    - destruct (lookup_lt_is_Some_2 evs i) as [e He]; [lia |].
      destruct (image_event_inv image i e Hwf Hidx He)
        as (r & c & v & Hr & Hc & Hsplit & Hrow & Hcol & Hval & Hint).
      rewrite Hval. cbn [fmap option_fmap option_map]. rewrite <- Hint.
      destruct (Hcell r c) as [_ Hlast]; [lia | lia |].
      specialize (Hlast i e He (conj Hrow Hcol)).
      unfold cell in Hlast. rewrite Hs1, <- Hsplit in Hlast. apply Hlast.
      intros j e' Hij Hj [Hrow' Hcol'].
      destruct (image_event_inv image j e' Hwf Hidx Hj)
        as (r' & c' & v' & _ & _ & Hsplit' & Hr' & Hc' & _).
      assert (r' = r) by lia. assert (c' = c) by lia. subst r' c'. lia.
    - rewrite !lookup_ge_None_2; [reflexivity | |].
      + rewrite Hwf. lia.
      + rewrite Hwf', Hs0, Hs1. lia. }
  rewrite Hrun. f_equal. unfold image_astype_float64.
  destruct img as [s0 s1 fl]; simpl in *. congruence.
Qed.

Lemma image_astype_float64_id (image : ndarray2 f64) :
  image_astype_float64 image = image.
Proof.
  destruct image as [s0 s1 fl]. unfold image_astype_float64, astype_float64.
  cbn [shape0 shape1 flat]. f_equal. apply list_fmap_id.
Qed.

(** ** Suffix tests *)

Lemma substring_prefix_all (s : string) (n : nat) :
  String.length s <= n -> substring 0 n s = s.
Proof.
  revert n. induction s as [|c s IH]; intros n Hn.
  - destruct n; reflexivity.
  - destruct n as [|n]; simpl in Hn; [lia |].
    simpl. rewrite IH by lia. reflexivity.
Qed.

Lemma slice_last_short (n : nat) (s : string) :
  String.length s <= n -> slice_last n s = s.
Proof.
  intros Hn. unfold slice_last.
  replace (String.length s - n) with 0 by lia.
  apply substring_prefix_all, Hn.
Qed.

Lemma slice_last_cons (n : nat) (c : ascii) (s : string) :
  n <= String.length s -> slice_last n (String c s) = slice_last n s.
Proof.
  intros Hn. unfold slice_last.
  replace (String.length (String c s) - n) with (S (String.length s - n))
    by (simpl; lia).
  reflexivity.
Qed.

Lemma eqb_length_neq (s t : string) :
  String.length s <> String.length t -> String.eqb s t = false.
Proof. intros Hlen. apply String.eqb_neq. intros ->. apply Hlen. reflexivity. Qed.

Lemma endswith_short (s suffix : string) :
  String.length s < String.length suffix -> endswith s suffix = false.
Proof.
  induction s as [|c s IH]; intros Hlen; cbn [endswith].
  - rewrite eqb_length_neq by (simpl; lia). reflexivity.
  - rewrite eqb_length_neq by lia. simpl in Hlen. apply IH. lia.
Qed.

Lemma slice_last_endswith (s suffix : string) :
  String.eqb (slice_last (String.length suffix) s) suffix = endswith s suffix.
Proof.
  induction s as [|c s IH].
  - rewrite slice_last_short by (simpl; lia). cbn [endswith].
    rewrite orb_false_r. reflexivity.
  - cbn [endswith].
    destruct (le_lt_dec (String.length suffix) (String.length s)) as [Hle | Hlt].
    + rewrite slice_last_cons by exact Hle. rewrite IH.
      rewrite (eqb_length_neq (String c s)) by (simpl; lia). reflexivity.
    + rewrite slice_last_short by (simpl; lia).
      rewrite (endswith_short s suffix Hlt), orb_false_r. reflexivity.
Qed.

Lemma length_slice_last (n : nat) (s : string) :
  String.length (slice_last n s) <= n.
Proof.
  induction s as [|c s IH].
  - rewrite slice_last_short by (simpl; lia). simpl. lia.
  - destruct (le_lt_dec n (String.length s)) as [Hle | Hlt].
    + rewrite slice_last_cons by exact Hle. exact IH.
    + rewrite slice_last_short by (simpl; lia). simpl. lia.
Qed.

Lemma length_lower (s : string) : String.length (lower s) = String.length s.
Proof. induction s as [|c s IH]; simpl; [| rewrite IH]; reflexivity. Qed.

Lemma lower_substring (s : string) :
  forall k n, lower (substring k n s) = substring k n (lower s).
Proof.
  induction s as [|c s IH]; intros k n.
  - destruct k, n; reflexivity.
  - destruct k as [|k]; simpl.
    + destruct n as [|n]; [reflexivity |]. simpl. rewrite IH. reflexivity.
    + apply IH.
Qed.

Lemma lower_slice_last (n : nat) (s : string) :
  lower (slice_last n s) = slice_last n (lower s).
Proof. unfold slice_last. rewrite lower_substring, length_lower. reflexivity. Qed.

(** The case-insensitive test the code writes is the extension test. *)
Lemma lower_slice_test (ext filename : string) :
  String.eqb (lower (slice_last (String.length ext) filename)) ext =
  has_extension ext filename.
Proof. rewrite lower_slice_last. apply slice_last_endswith. Qed.

(** A case-sensitive match on a lower-case extension is also a
    case-insensitive one. *)
Lemma exact_slice_test (ext filename : string) :
  lower ext = ext ->
  has_extension ext filename = false ->
  String.eqb (slice_last (String.length ext) filename) ext = false.
Proof.
  intros Hext Hno. apply String.eqb_neq. intros Heq.
  rewrite <- lower_slice_test, Heq, Hext, String.eqb_refl in Hno. discriminate.
Qed.

(** Four characters never spell a five-character extension. *)
Lemma slice4_never_spec (filename : string) :
  String.eqb (slice_last 4 filename) ".spec" = false.
Proof.
  apply eqb_length_neq. pose proof (length_slice_last 4 filename). simpl. lia.
Qed.

Lemma slice_last_slice_last (m n : nat) (s : string) :
  m <= n -> slice_last m (slice_last n s) = slice_last m s.
Proof.
  intros Hmn. induction s as [|c s IH].
  - rewrite (slice_last_short n) by (simpl; lia). reflexivity.
  - destruct (le_lt_dec n (String.length s)) as [Hle | Hlt].
    + rewrite (slice_last_cons n) by exact Hle.
      rewrite (slice_last_cons m) by lia. exact IH.
    + rewrite (slice_last_short n) by (simpl; lia). reflexivity.
Qed.

(** A file name ending in [.spec], in any letter case, fails every test of
    [get_spectrum]. *)
Lemma get_spectrum_spec_never_loaded {table : Type}
    (loadtxt : string -> result table) (h5_spectrum : string -> result (list Q))
    (filename : string) :
  has_extension ".spec" filename = true ->
  get_spectrum loadtxt h5_spectrum filename =
  ([], Raise (Exception "Wrong file extension")).
Proof.
  intros Hext.
  assert (H5 : slice_last 5 (lower filename) = ".spec"%string).
  { apply String.eqb_eq.
    etransitivity; [apply (slice_last_endswith (lower filename) ".spec") |].
    exact Hext. }
  assert (H4 : slice_last 4 (lower filename) = "spec"%string).
  { rewrite <- (slice_last_slice_last 4 5) by lia. rewrite H5. reflexivity. }
  assert (H3 : slice_last 3 (lower filename) = "pec"%string).
  { rewrite <- (slice_last_slice_last 3 5) by lia. rewrite H5. reflexivity. }
  assert (Hexact : forall ext, lower ext = ext -> ext <> "spec"%string ->
            String.eqb (slice_last 4 filename) ext = false).
  { intros ext Hlow Hne. apply String.eqb_neq. intros Heq.
    apply Hne. rewrite <- Hlow, <- Heq, lower_slice_last. exact H4. }
  unfold get_spectrum.
  rewrite (Hexact ".txt"%string), (Hexact ".dat"%string), (Hexact ".spec"%string)
    by (reflexivity || discriminate).
  rewrite lower_slice_last, H3. reflexivity.
Qed.

(** ** What a successful reconstruction always looks like *)

Lemma wrap_index_ok (n : nat) (i : Z) (k : nat) : wrap_index n i = Ok k -> k < n.
Proof.
  unfold wrap_index.
  destruct ((0 <=? i)%Z && (i <? Z.of_nat n)%Z) eqn:H1.
  - apply andb_true_iff in H1 as [Ha Hb].
    apply Z.leb_le in Ha. apply Z.ltb_lt in Hb. intros [= <-]. lia.
  - destruct ((- Z.of_nat n <=? i)%Z && (i <? 0)%Z) eqn:H2; [| discriminate].
    apply andb_true_iff in H2 as [Ha Hb].
    apply Z.leb_le in Ha. apply Z.ltb_lt in Hb. intros [= <-]. lia.
Qed.

Lemma setitem_ok (a a' : ndarray2 f64) (i j : Z) (v : f64) :
  setitem a i j v = Ok a' ->
  shape0 a' = shape0 a /\ shape1 a' = shape1 a /\
  length (flat a') = length (flat a) /\ 1 <= shape0 a /\ 1 <= shape1 a.
Proof.
  unfold setitem.
  destruct (wrap_index (shape0 a) i) as [r|] eqn:Hr; [| discriminate].
  destruct (wrap_index (shape1 a) j) as [c|] eqn:Hc; [| discriminate].
  apply wrap_index_ok in Hr. apply wrap_index_ok in Hc.
  cbn [mbind result_bind]. intros [= <-]. cbn [shape0 shape1 flat].
  rewrite length_insert. repeat split; lia.
Qed.

Lemma setitem_fancy_ok (w : list (Z * Z * f64)) :
  forall a a', setitem_fancy a w = Ok a' ->
    shape0 a' = shape0 a /\ shape1 a' = shape1 a /\
    length (flat a') = length (flat a) /\
    (w <> [] -> 1 <= shape0 a /\ 1 <= shape1 a).
Proof.
  induction w as [|[[i j] v] w IH]; intros a a' Hrun.
  - injection Hrun as <-. repeat split; congruence.
  - cbn [setitem_fancy] in Hrun.
    destruct (setitem a i j v) as [a1|] eqn:Hset; [| discriminate].
    cbn [mbind result_bind] in Hrun.
    apply setitem_ok in Hset as (H0 & H1 & Hl & Hr & Hc).
    apply IH in Hrun as (H0' & H1' & Hl' & _).
    repeat split; congruence || lia.
Qed.

Lemma photon_events_to_image_ok (evs : list (f64 * f64 * f64)) (img : ndarray2 f64) :
  photon_events_to_image evs = Ok img ->
  evs <> [] /\ well_shaped img /\ 1 <= shape0 img /\ 1 <= shape1 img.
Proof.
  unfold photon_events_to_image. rewrite yind_eq, xind_eq, zip_indices_eq.
  destruct evs as [|e evs]; [discriminate |].
  change (trunc_row <$> e :: evs) with (trunc_row e :: (trunc_row <$> evs)).
  change (trunc_col <$> e :: evs) with (trunc_col e :: (trunc_col <$> evs)).
  cbn [amax mbind result_bind]. unfold zeros.
  destruct (_ || _); [discriminate |]. cbn [mbind result_bind].
  intros Hrun. apply setitem_fancy_ok in Hrun as (H0 & H1 & Hl & Hpos).
  cbn [shape0 shape1 flat] in *. rewrite length_replicate in Hl.
  destruct Hpos as [Hr Hc]; [discriminate |].
  split; [discriminate |]. unfold well_shaped. repeat split; lia.
Qed.

(** ** Indices of arbitrary coordinates *)

Section Indices.
Local Open Scope Z_scope.

Lemma f64_round_finite z :
  Z.abs (round53 z) < 2 ^ 2098 -> exists ok, f64_round z = Finite (round53 z) ok.
Proof.
  intros Hb. exists (is_f64_round z Hb). unfold f64_round. cbv zeta.
  apply finite_or_ok.
Qed.

Lemma round53_0 : round53 0 = 0.
Proof. reflexivity. Qed.


(** From just above -0.5 up to 0.5 the index is 0. *)
Lemma index_of_fraction n ok :
  - 2 ^ 1073 + 2 ^ 1021 <= n < 2 ^ 1073 ->
  index_of (Finite n ok) = 0 /\ (n - 2 ^ 1073) / 2 ^ 1074 = -1.
Proof.
  intros [Hlo Hhi].
  assert (Hb : round53 (- 2 ^ 1074 + 2 ^ 1021) = - 2 ^ 1074 + 2 ^ 1021).
  { replace (- 2 ^ 1074 + 2 ^ 1021) with (- (2 ^ 53 - 1) * 2 ^ 1021).
    - apply round53_dyadic; lia.
    - change (2 ^ 1074) with (2 ^ 53 * 2 ^ 1021). lia. }
  assert (H74 : 2 ^ 1074 = 2 * 2 ^ 1073) by reflexivity.
  assert (H21 : 0 < 2 ^ 1021) by (apply pow2_pos; lia).
  assert (Hup : round53 (n - 2 ^ 1073) <= 0)
    by (apply round53_anchor_up; [lia | apply round53_0]).
  assert (Hdn : - 2 ^ 1074 + 2 ^ 1021 <= round53 (n - 2 ^ 1073))
    by (apply round53_anchor_lo; [lia | exact Hb]).
  split.
  - unfold index_of. rewrite sub_half_eq.
    destruct (f64_round_finite (n - 2 ^ 1073)) as [ok' ->].
    { assert (2 ^ 1074 < 2 ^ 2098) by (apply Z.pow_lt_mono_r; lia). lia. }
    assert (Hq : Z.quot (round53 (n - 2 ^ 1073)) (2 ^ 1074) = 0).
    { rewrite <- (Z.opp_involutive (round53 (n - 2 ^ 1073))).
      rewrite Z.quot_opp_l by lia. rewrite Z.quot_small by lia. reflexivity. }
    rewrite astype_int64_finite; rewrite Hq; lia.
  - symmetry. apply (Z.div_unique _ _ _ (n + 2 ^ 1073)); lia.
Qed.

(** From just above -0.5 up to 2^63 the index is a non-negative int64. *)
Lemma index_of_nonneg n ok :
  - 2 ^ 1073 + 2 ^ 1021 <= n < 2 ^ 63 * 2 ^ 1074 ->
  0 <= index_of (Finite n ok).
Proof.
  intros [Hlo Hhi].
  destruct (Z.lt_ge_cases n (2 ^ 1073)) as [Hn | Hn].
  { destruct (index_of_fraction n ok) as [-> _]; lia. }
  destruct (is_f64_exact n ok) as [Hr Hbound].
  assert (Hup : round53 (n - 2 ^ 1073) <= n)
    by (apply round53_anchor_up; [lia | exact Hr]).
  assert (Hdn : 0 <= round53 (n - 2 ^ 1073))
    by (apply round53_anchor_lo; [lia | apply round53_0]).
  unfold index_of. rewrite sub_half_eq.
  destruct (f64_round_finite (n - 2 ^ 1073)) as [ok' ->]; [lia |].
  assert (Hq0 : 0 <= Z.quot (round53 (n - 2 ^ 1073)) (2 ^ 1074))
    by (apply Z.quot_pos; lia).
  assert (Hq1 : Z.quot (round53 (n - 2 ^ 1073)) (2 ^ 1074) < 2 ^ 63).
  { apply Z.quot_lt_upper_bound; lia. }
  rewrite astype_int64_finite; lia.
Qed.

Lemma value_in_units (lo hi : Q) (v : f64) :
  value_in lo hi v ->
  exists n ok, v = Finite n ok /\ (lo <= n # units_per_one)%Q /\
               (n # units_per_one < hi)%Q.
Proof.
  intros (q & Hv & Hlo & Hhi). destruct v as [n ok | |]; try contradiction.
  cbn [has_value] in Hv. exists n, ok. rewrite Hv. auto.
Qed.

Lemma units_ge_just_above n :
  (just_above_minus_half <= n # units_per_one)%Q -> - 2 ^ 1073 + 2 ^ 1021 <= n.
Proof.
  unfold just_above_minus_half, half, Qle, Qplus, Qopp. cbn [Qnum Qden].
  rewrite units_per_one_eq, !Pos2Z.inj_mul, Pos2Z.inj_pow.
  change (Z.pos 2) with 2. change (Z.pos 53) with 53.
  change (2 ^ 1074) with (2 ^ 1021 * 2 ^ 53). intros H.
  assert (H53 : 0 < 2 ^ 53) by (apply pow2_pos; lia).
  change (2 ^ 1073) with (2 ^ 1021 * 2 ^ 52). change (2 ^ 53) with (2 * 2 ^ 52) in *.
  nia.
Qed.

Lemma units_lt_half n : (n # units_per_one < half)%Q -> n < 2 ^ 1073.
Proof.
  unfold half, Qlt. cbn [Qnum Qden]. rewrite units_per_one_eq.
  change (2 ^ 1074) with (2 * 2 ^ 1073). lia.
Qed.


Lemma units_lt_int n (z : Z) : (n # units_per_one < inject_Z z)%Q -> n < z * 2 ^ 1074.
Proof.
  unfold Qlt, inject_Z. cbn [Qnum Qden]. rewrite units_per_one_eq. lia.
Qed.


End Indices.

(** ** Indices under the pixel-center convention *)

Lemma pixel_center_index (v : f64) :
  pixel_center v ->
  index_of v = Qfloor (f64_real v - half) /\ (0 <= index_of v)%Z.
Proof.
  intros Hv. apply pixel_center_inv in Hv as (k & Hk & ->).
  rewrite (index_of_center k Hk), (floor_center k Hk). split; lia.
Qed.

Lemma convention_indices (evs : list (f64 * f64 * f64)) :
  pixel_center_events evs ->
  Forall (fun e => trunc_row e = floor_row e /\ trunc_col e = floor_col e /\
                   (0 <= trunc_row e)%Z /\ (0 <= trunc_col e)%Z) evs.
Proof.
  unfold pixel_center_events. intros Hall.
  eapply Forall_impl; [exact Hall |]. intros e [Hx Hy]. simpl in Hx, Hy.
  apply pixel_center_index in Hx as [Hx Hx0].
  apply pixel_center_index in Hy as [Hy Hy0].
  unfold trunc_row, trunc_col, floor_row, floor_col. auto.
Qed.

(** ** The model against the hardware, and the scenarios of the
    specification run on the model *)

(** On the samples the model's [x - 0.5] is the processor's. *)
Example sub_half_as_hardware :
  Forall (fun x => f64_of_prim (PrimFloat.sub x 0.5%float)
                   = f64_sub (f64_of_prim x) f64_half) hardware_samples.
Proof. repeat (apply Forall_cons; split; [vm_compute; reflexivity |]). constructor. Qed.

(** On the samples the model's [x + 0.5] is the processor's. *)
Example add_half_as_hardware :
  Forall (fun x => f64_of_prim (PrimFloat.add x 0.5%float)
                   = f64_add (f64_of_prim x) f64_half) hardware_samples.
Proof. repeat (apply Forall_cons; split; [vm_compute; reflexivity |]). constructor. Qed.

(** The conversion of 2^53 + 1 to float64 is the processor's. *)
Example int_to_float_as_hardware :
  f64_of_prim (PrimFloat.of_uint63 9007199254740993%uint63)
  = to_float64 (2 ^ 53 + 1)%Z.
Proof. vm_compute. reflexivity. Qed.

Example events_of_img22 :
  image_to_photon_events img22 =
  [(f64_dyadic 1 (-1), f64_dyadic 1 (-1), f64_of_Z 1);
   (f64_dyadic 3 (-1), f64_dyadic 1 (-1), f64_of_Z 2);
   (f64_dyadic 1 (-1), f64_dyadic 3 (-1), f64_of_Z 3);
   (f64_dyadic 3 (-1), f64_dyadic 3 (-1), f64_of_Z 4)].
Proof. vm_compute. reflexivity. Qed.

Example image_of_events_of_img22 :
  photon_events_to_image (image_to_photon_events img22) = Ok img22.
Proof. vm_compute. reflexivity. Qed.

Example coordinate_convention :
  image_to_photon_events (Array2 3 4 (replicate 11 0%Z ++ [7%Z])) !! (2 * 4 + 3)
  = Some (f64_dyadic 7 (-1), f64_dyadic 5 (-1), f64_of_Z 7).
Proof. vm_compute. reflexivity. Qed.

Example inverse_convention :
  (img ← photon_events_to_image [(f64_dyadic 7 (-1), f64_dyadic 5 (-1), f64_of_Z 7)];
   Ok (cell img 2 3))
  = Ok (Some (f64_of_Z 7)).
Proof. vm_compute. reflexivity. Qed.

Example last_write_wins :
  photon_events_to_image evs3 =
  Ok (Array2 1 3 [f64_zero; f64_of_Z 9; f64_of_Z 4]).
Proof. vm_compute. reflexivity. Qed.

Example off_center_lands_on_zero :
  photon_events_to_image evs_off = Ok (Array2 1 2 [f64_of_Z 7; f64_of_Z 5]).
Proof. vm_compute. reflexivity. Qed.

(** A coordinate below -0.5 gives a negative index, which numpy counts
    from the end of the axis. *)
Example negative_index_wraps :
  photon_events_to_image evs_neg =
  Ok (Array2 1 3 [f64_zero; f64_of_Z 7; f64_of_Z 8]).
Proof. vm_compute. reflexivity. Qed.

(** The float next above -0.5 loses its difference with 0.5 to rounding:
    the index is -1.  Alone it is out of range; next to an event in
    column 2 it is written to column 2. *)
Example next_above_minus_half :
  index_of x_below = (-1)%Z /\
  photon_events_to_image [(x_below, f64_half, f64_of_Z 7)] = Raise IndexError /\
  photon_events_to_image [(f64_dyadic 5 (-1), f64_half, f64_of_Z 5);
                          (x_below, f64_half, f64_of_Z 7)]
  = Ok (Array2 1 3 [f64_zero; f64_zero; f64_of_Z 7]).
Proof. repeat split; vm_compute; reflexivity. Qed.

(** A coordinate that does not fit an int64 gets the index -2^63. *)
Example index_out_of_int64 :
  index_of (f64_of_Z (10 ^ 19)) = (- 2 ^ 63)%Z /\
  photon_events_to_image [(f64_of_Z (10 ^ 19), f64_half, f64_of_Z 5);
                          (f64_dyadic 1 (-2), f64_half, f64_of_Z 7)]
  = Raise IndexError.
Proof. split; vm_compute; reflexivity. Qed.

(** An int64 intensity above 2^53 is rounded when the events are built. *)
Example intensity_is_cast :
  col2 (image_to_photon_events img_big) = [f64_of_Z (2 ^ 53)].
Proof. vm_compute. reflexivity. Qed.

(** * The claims *)

(** C1, as stated, fails: the int64 image [[2^53 + 1]] comes back from
    the round trip with the value 2^53 in its cell. *)
Lemma image_events_image_roundtrip_counterexample :
  ~ (forall image : ndarray2 Z,
       well_shaped image -> 1 <= shape0 image * shape1 image ->
       exists image',
         photon_events_to_image (image_to_photon_events image) = Ok image' /\
         shape0 image' = shape0 image /\ shape1 image' = shape1 image /\
         forall r c v, cell image r c = Some v ->
           exists v', cell image' r c = Some v' /\ has_value v' (inject_Z v)).
Proof.
  intros Hclaim.
  destruct (Hclaim img_big) as (image' & Hrun & _ & _ & Hcell);
    [reflexivity | simpl; lia |].
  vm_compute in Hrun. injection Hrun as <-.
  destruct (Hcell 0 0 (2 ^ 53 + 1)%Z eq_refl) as (v' & Hv' & Hval).
  vm_compute in Hv'. injection Hv' as <-.
  vm_compute in Hval. discriminate Hval.
Qed.

(** C1, amended.  For every image with R*C >= 1 and at most 2^52 rows and
    2^52 columns, converting it to photon events and back gives an image
    of the same shape whose cells are the float64 conversions of the
    original cells.  So a float64 image comes back unchanged, and so does,
    value for value, an integer image whose values lie within 2^53 of
    zero. *)
Theorem image_events_image_roundtrip :
  (forall (A : Type) (D : DType A) (image : ndarray2 A),
     well_shaped image -> 1 <= shape0 image * shape1 image -> indexable image ->
     photon_events_to_image (image_to_photon_events image) =
     Ok (image_astype_float64 image)) /\
  (forall image : ndarray2 f64,
     well_shaped image -> 1 <= shape0 image * shape1 image -> indexable image ->
     photon_events_to_image (image_to_photon_events image) = Ok image) /\
  (forall image : ndarray2 Z,
     well_shaped image -> 1 <= shape0 image * shape1 image -> indexable image ->
     Forall (fun v => (- 2 ^ 53 <= v <= 2 ^ 53)%Z) (flat image) ->
     exists image',
       photon_events_to_image (image_to_photon_events image) = Ok image' /\
       shape0 image' = shape0 image /\ shape1 image' = shape1 image /\
       forall r c v, cell image r c = Some v ->
         exists v', cell image' r c = Some v' /\ has_value v' (inject_Z v)).
Proof.
  split; [intros A D image; apply roundtrip_image |]. split.
  - intros image Hwf Hsize Hidx.
    rewrite (roundtrip_image image Hwf Hsize Hidx).
    rewrite image_astype_float64_id. reflexivity.
  - intros image Hwf Hsize Hidx Hsmall.
    exists (image_astype_float64 image).
    split; [apply roundtrip_image; assumption |].
    split; [reflexivity |]. split; [reflexivity |].
    intros r c v Hv. exists (to_float64 v). split.
    + unfold cell, image_astype_float64, astype_float64 in *.
      cbn [flat shape1]. rewrite list_lookup_fmap, Hv. reflexivity.
    + assert (Hin : v ∈ flat image) by (eapply list_elem_of_lookup_2, Hv).
      rewrite Forall_forall in Hsmall. specialize (Hsmall v Hin).
      unfold to_float64, int_dtype.
      destruct (f64_of_Z_exact v Hsmall) as [ok ->]. cbn [has_value].
      unfold Qeq, inject_Z. cbn [Qnum Qden]. rewrite units_per_one_eq. lia.
Qed.

Lemma img22_indexable : indexable img22.
Proof. split; vm_compute; discriminate. Defined.

Lemma image_events_image_roundtrip_witness :
  well_shaped img22 /\ 1 <= shape0 img22 * shape1 img22 /\ indexable img22 /\
  photon_events_to_image (image_to_photon_events img22) = Ok img22.
Proof.
  assert (Hwf : well_shaped img22) by reflexivity.
  assert (Hsz : 1 <= shape0 img22 * shape1 img22) by (simpl; lia).
  exact (conj Hwf (conj Hsz (conj img22_indexable
    (proj1 (proj2 image_events_image_roundtrip) img22 Hwf Hsz img22_indexable)))).
Defined.

(** C2, as stated, fails: the listing of the int64 image [[2^53 + 1]] has
    one triple, and its third component is 2^53. *)
Lemma image_to_photon_events_listing_counterexample :
  ~ (forall (image : ndarray2 Z) (r c : nat) (v : Z),
       well_shaped image -> cell image r c = Some v ->
       r < shape0 image -> c < shape1 image ->
       exists e, image_to_photon_events image !! (r * shape1 image + c) = Some e /\
         has_value e.1.1 (inject_Z (Z.of_nat c) + half) /\
         has_value e.1.2 (inject_Z (Z.of_nat r) + half) /\
         has_value e.2 (inject_Z v)).
Proof.
  intros Hclaim.
  destruct (Hclaim img_big 0 0 (2 ^ 53 + 1)%Z) as (e & He & _ & _ & Hval);
    [reflexivity | reflexivity | simpl; lia | simpl; lia |].
  vm_compute in He. injection He as <-.
  vm_compute in Hval. discriminate Hval.
Qed.

(** C2, amended.  For every (R, C) image, [image_to_photon_events] yields
    exactly R*C triples; the triple at flat position r*C + c (x fastest)
    is (float(c) + 0.5, float(r) + 0.5, float64(image[r][c])), where the
    coordinates are exactly c + 0.5 and r + 0.5 for indices below 2^52
    and the intensity is the cell converted to float64; an empty image
    yields the empty sequence. *)
Theorem image_to_photon_events_listing
    (A : Type) (D : DType A) (image : ndarray2 A) :
  well_shaped image ->
  length (image_to_photon_events image) = shape0 image * shape1 image /\
  (forall r c, r < shape0 image -> c < shape1 image ->
     exists v, cell image r c = Some v /\
       image_to_photon_events image !! (r * shape1 image + c) =
       Some (center c, center r, to_float64 v) /\
       ((Z.of_nat c < 2 ^ 52)%Z ->
        has_value (center c) (inject_Z (Z.of_nat c) + half)) /\
       ((Z.of_nat r < 2 ^ 52)%Z ->
        has_value (center r) (inject_Z (Z.of_nat r) + half))) /\
  (shape0 image * shape1 image = 0 -> image_to_photon_events image = []).
Proof.
  intros Hwf. split; [apply length_image_to_photon_events, Hwf |]. split.
  - intros r c Hr Hc.
    destruct (lookup_image_to_photon_events image r c Hwf Hr Hc) as (v & Hv & He).
    exists v. split; [exact Hv |]. split; [exact He |].
    split; apply has_value_center.
  - intros Hempty. apply length_zero_iff_nil.
    rewrite length_image_to_photon_events by exact Hwf. exact Hempty.
Qed.

Lemma image_to_photon_events_listing_witness :
  well_shaped img22 /\
  length (image_to_photon_events img22) = 4 /\
  exists v, cell img22 1 0 = Some v /\
    image_to_photon_events img22 !! (1 * 2 + 0) = Some (center 0, center 1, v) /\
    has_value (center 0) (inject_Z 0 + half) /\
    has_value (center 1) (inject_Z 1 + half).
Proof.
  assert (Hwf : well_shaped img22) by reflexivity.
  destruct (image_to_photon_events_listing f64 _ img22 Hwf) as (Hlen & Hat & _).
  split; [exact Hwf |]. split; [exact Hlen |].
  destruct (Hat 1 0) as (v & Hv & Hev & Hx & Hy); [simpl; lia | simpl; lia |].
  exists v. split; [exact Hv |]. split; [exact Hev |].
  split; [apply Hx | apply Hy]; vm_compute; reflexivity.
Defined.

(** C3. For every non-empty events sequence with pixel-center coordinates,
    [photon_events_to_image] returns an image of shape
    (max r + 1, max c + 1) over r = floor(y - 0.5), c = floor(x - 0.5);
    a cell no event maps to is zero, and a cell some event maps to holds
    the intensity of the last such event. *)
Theorem photon_events_to_image_contract (evs : list (f64 * f64 * f64)) :
  evs <> [] -> pixel_center_events evs ->
  exists img mr mc,
    photon_events_to_image evs = Ok img /\ well_shaped img /\
    is_max mr (floor_row <$> evs) /\ is_max mc (floor_col <$> evs) /\
    Z.of_nat (shape0 img) = (mr + 1)%Z /\ Z.of_nat (shape1 img) = (mc + 1)%Z /\
    forall r c, r < shape0 img -> c < shape1 img ->
      ((forall e, e ∈ evs -> ~ hits e r c) -> cell img r c = Some f64_zero) /\
      (forall i e, evs !! i = Some e -> hits e r c ->
         (forall j e', i < j -> evs !! j = Some e' -> ~ hits e' r c) ->
         cell img r c = Some e.2).
Proof.
  intros Hne Hconv.
  pose proof (convention_indices evs Hconv) as Hidx.
  assert (Hsame : forall e r c, e ∈ evs -> (lands e r c <-> hits e r c)).
  { intros e r c He. rewrite Forall_forall in Hidx.
    destruct (Hidx e He) as (Hr & Hc & _). unfold lands, hits.
    rewrite Hr, Hc. reflexivity. }
  destruct (photon_events_to_image_lands evs Hne)
    as (img & Hrun & Hwf & Hmr & Hmc & Hcell).
  { eapply Forall_impl; [exact Hidx |]. intros e (_ & _ & H0 & H1). auto. }
  assert (Hrows : trunc_row <$> evs = floor_row <$> evs).
  { apply Forall_fmap_ext. eapply Forall_impl; [exact Hidx |].
    intros e (H & _). exact H. }
  assert (Hcols : trunc_col <$> evs = floor_col <$> evs).
  { apply Forall_fmap_ext. eapply Forall_impl; [exact Hidx |].
    intros e (_ & H & _). exact H. }
  rewrite Hrows in Hmr. rewrite Hcols in Hmc.
  exists img, (Z.of_nat (shape0 img) - 1)%Z, (Z.of_nat (shape1 img) - 1)%Z.
  repeat (split; [assumption || lia |]).
  intros r c Hr Hc. destruct (Hcell r c Hr Hc) as [Hzero Hlast]. split.
  - intros Hno. apply Hzero. intros e He Hl. apply (Hno e He), Hsame; assumption.
  - intros i e Hi Hh Hlater. apply (Hlast i e Hi).
    + apply Hsame; [eapply list_elem_of_lookup_2, Hi | exact Hh].
    + intros j e' Hij Hj Hl. apply (Hlater j e' Hij Hj).
      apply Hsame; [eapply list_elem_of_lookup_2, Hj | exact Hl].
Qed.

Lemma pixel_center_dyadic (k : nat) :
  (Z.of_nat k < 2 ^ 52)%Z -> pixel_center (center k).
Proof. intros Hk. exists k. apply has_value_center, Hk. Defined.

Lemma evs3_convention : pixel_center_events evs3.
Proof.
  unfold evs3.
  repeat (apply Forall_cons; split;
          [split; apply pixel_center_dyadic; vm_compute; reflexivity |]).
  apply Forall_nil. constructor.
Defined.

Lemma photon_events_to_image_contract_witness :
  evs3 <> [] /\ pixel_center_events evs3 /\
  exists img mr mc,
    photon_events_to_image evs3 = Ok img /\ well_shaped img /\
    is_max mr (floor_row <$> evs3) /\ is_max mc (floor_col <$> evs3) /\
    Z.of_nat (shape0 img) = (mr + 1)%Z /\ Z.of_nat (shape1 img) = (mc + 1)%Z /\
    forall r c, r < shape0 img -> c < shape1 img ->
      ((forall e, e ∈ evs3 -> ~ hits e r c) -> cell img r c = Some f64_zero) /\
      (forall i e, evs3 !! i = Some e -> hits e r c ->
         (forall j e', i < j -> evs3 !! j = Some e' -> ~ hits e' r c) ->
         cell img r c = Some e.2).
Proof.
  assert (Hne : evs3 <> []) by discriminate.
  exact (conj Hne (conj evs3_convention
           (photon_events_to_image_contract evs3 Hne evs3_convention))).
Defined.

(** C4. On the empty events sequence [photon_events_to_image] raises (the
    failure of [max] on a zero-size array); whenever it does return an
    image, the input was non-empty and the image is well formed with no
    zero-sized axis; and it succeeds on every non-empty events sequence
    that follows the pixel-center convention. *)
Theorem photon_events_to_image_empty_raises :
  photon_events_to_image [] = Raise ValueError /\
  (forall evs img, photon_events_to_image evs = Ok img ->
     evs <> [] /\ well_shaped img /\ 1 <= shape0 img /\ 1 <= shape1 img) /\
  (forall evs, evs <> [] -> pixel_center_events evs ->
     exists img, photon_events_to_image evs = Ok img).
Proof.
  split; [reflexivity |]. split; [apply photon_events_to_image_ok |].
  intros evs Hne Hconv.
  destruct (photon_events_to_image_lands evs Hne) as (img & Hrun & _).
  - eapply Forall_impl; [exact (convention_indices evs Hconv) |].
    intros e (_ & _ & H0 & H1). auto.
  - exists img. exact Hrun.
Qed.

Lemma photon_events_to_image_empty_raises_witness :
  evs3 <> [] /\ pixel_center_events evs3 /\
  exists img, photon_events_to_image evs3 = Ok img.
Proof.
  assert (Hne : evs3 <> []) by discriminate.
  exact (conj Hne (conj evs3_convention
           (proj2 (proj2 photon_events_to_image_empty_raises)
                  evs3 Hne evs3_convention))).
Defined.




(** C6. The claim: every file name ending in .txt, .dat or .spec, in any
    letter case, is parsed by [np.loadtxt], the three alike.  The code at
    two such names: "scan.spec" and "SCAN.TXT" both carry a listed
    extension, and [get_spectrum] raises 'Wrong file extension' on each
    without calling the loader, while "scan.txt" is loaded. *)
Theorem get_spectrum_spec_and_upper_case_rejected {table : Type}
    (loadtxt : string -> result table) (h5_spectrum : string -> result (list Q)) :
  has_extension ".spec" "scan.spec" = true /\
  get_spectrum loadtxt h5_spectrum "scan.spec" =
    ([], Raise (Exception "Wrong file extension")) /\
  has_extension ".txt" "SCAN.TXT" = true /\
  get_spectrum loadtxt h5_spectrum "SCAN.TXT" =
    ([], Raise (Exception "Wrong file extension")) /\
  get_spectrum loadtxt h5_spectrum "scan.txt" =
    io_bind (lift (loadtxt "scan.txt"%string)) (fun t => io_ret (Table t)).
Proof. repeat split. Qed.

(** C7. For every file name whose extension is none of .h5, .tif, .nxs,
    [get_image] prints one diagnostic line and returns [None]; it does
    not raise and calls no reader. *)
Theorem get_image_unknown_extension {pixel : Type} `{DType pixel}
    (h5_events : string -> result (list (f64 * f64)))
    (imread : string -> result (ndarray2 pixel))
    (nxload : string -> result (list (string * result (list (ndarray2 pixel)))))
    (filename : string) :
  has_extension ".h5" filename = false ->
  has_extension ".tif" filename = false ->
  has_extension ".nxs" filename = false ->
  get_image h5_events imread nxload filename =
  (["Unknown file extention " ++ filename]%string, Ok NoneValue).
Proof.
  intros Hh5 Htif Hnxs. unfold get_image.
  pose proof (lower_slice_test ".h5" filename) as T1.
  pose proof (lower_slice_test ".tif" filename) as T2.
  pose proof (lower_slice_test ".nxs" filename) as T3.
  cbn [String.length] in T1, T2, T3.
  rewrite T1, Hh5, T2, Htif, T3, Hnxs. reflexivity.
Qed.

Lemma get_image_unknown_extension_witness :
  has_extension ".h5" "frame.xyz" = false /\
  has_extension ".tif" "frame.xyz" = false /\
  has_extension ".nxs" "frame.xyz" = false /\
  get_image (pixel := Z) (fun _ => Raise IOError) (fun _ => Raise IOError)
            (fun _ => Raise IOError) "frame.xyz" =
  (["Unknown file extention frame.xyz"%string], Ok NoneValue).
Proof.
  exact (conj eq_refl (conj eq_refl (conj eq_refl
    (get_image_unknown_extension (pixel := Z)
       (fun _ => Raise IOError) (fun _ => Raise IOError)
       (fun _ => Raise IOError) "frame.xyz" eq_refl eq_refl eq_refl)))).
Defined.

(** C8. For every file name whose extension is none of .txt, .dat, .spec,
    .h5, [get_spectrum] raises 'Wrong file extension' at once: nothing is
    printed, no reader is called and no value is produced. *)
Theorem get_spectrum_unknown_extension {table : Type}
    (loadtxt : string -> result table) (h5_spectrum : string -> result (list Q))
    (filename : string) :
  has_extension ".txt" filename = false ->
  has_extension ".dat" filename = false ->
  has_extension ".spec" filename = false ->
  has_extension ".h5" filename = false ->
  get_spectrum loadtxt h5_spectrum filename =
  ([], Raise (Exception "Wrong file extension")).
Proof.
  intros Htxt Hdat _ Hh5. unfold get_spectrum.
  pose proof (exact_slice_test ".txt" filename eq_refl Htxt) as T1.
  pose proof (exact_slice_test ".dat" filename eq_refl Hdat) as T2.
  pose proof (lower_slice_test ".h5" filename) as T3.
  cbn [String.length] in T1, T2, T3.
  rewrite T1, T2, (slice4_never_spec filename), T3, Hh5. reflexivity.
Qed.

Lemma get_spectrum_unknown_extension_witness :
  has_extension ".txt" "frame.xyz" = false /\
  has_extension ".dat" "frame.xyz" = false /\
  has_extension ".spec" "frame.xyz" = false /\
  has_extension ".h5" "frame.xyz" = false /\
  get_spectrum (fun _ => Ok tt) (fun _ => Raise IOError) "frame.xyz" =
  ([], Raise (Exception "Wrong file extension")).
Proof.
  exact (conj eq_refl (conj eq_refl (conj eq_refl (conj eq_refl
    (get_spectrum_unknown_extension (fun _ => Ok tt) (fun _ => Raise IOError)
       "frame.xyz" eq_refl eq_refl eq_refl eq_refl))))).
Defined.

(** C9, as stated, fails: the single pixel-center event (1.5, 0.5, 7) is
    rebuilt as the 1 x 2 image [[0, 7]], whose listing has two events. *)
Lemma events_image_events_counterexample :
  ~ (forall evs : list (f64 * f64 * f64),
       evs <> [] -> pixel_center_events evs ->
       exists img, photon_events_to_image evs = Ok img /\
                   image_to_photon_events img = evs).
Proof.
  intros Hclaim.
  destruct (Hclaim [(center 1, center 0, f64_of_Z 7)]) as (img & Hrun & Hback).
  - discriminate.
  - apply Forall_cons; split;
      [split; apply pixel_center_dyadic; vm_compute; reflexivity |].
    apply Forall_nil. constructor.
  - vm_compute in Hrun. injection Hrun as <-.
    apply (f_equal length) in Hback. vm_compute in Hback. discriminate.
Qed.

(** C9, amended.  [photon_events_to_image] undoes
    [image_to_photon_events] on every float64 image with R*C >= 1 and at
    most 2^52 rows and columns (an image of another type comes back
    converted to float64); in the other direction, an events sequence is
    given back by [image_to_photon_events] after
    [photon_events_to_image] when it is itself the listing of such an
    image, and not for every pixel-center sequence. *)
Theorem events_roundtrip_on_image_listings
    (image : ndarray2 f64) (evs : list (f64 * f64 * f64)) :
  well_shaped image -> 1 <= shape0 image * shape1 image -> indexable image ->
  evs = image_to_photon_events image ->
  photon_events_to_image (image_to_photon_events image) = Ok image /\
  exists img, photon_events_to_image evs = Ok img /\
              image_to_photon_events img = evs.
Proof.
  intros Hwf Hsize Hidx ->.
  assert (Hrt : photon_events_to_image (image_to_photon_events image) = Ok image).
  { rewrite (roundtrip_image image Hwf Hsize Hidx).
    rewrite image_astype_float64_id. reflexivity. }
  split; [exact Hrt |]. exists image. split; [exact Hrt | reflexivity].
Qed.

Lemma events_roundtrip_on_image_listings_witness :
  well_shaped img22 /\ 1 <= shape0 img22 * shape1 img22 /\ indexable img22 /\
  photon_events_to_image (image_to_photon_events img22) = Ok img22 /\
  exists img, photon_events_to_image (image_to_photon_events img22) = Ok img /\
              image_to_photon_events img = image_to_photon_events img22.
Proof.
  assert (Hwf : well_shaped img22) by reflexivity.
  assert (Hsz : 1 <= shape0 img22 * shape1 img22) by (simpl; lia).
  exact (conj Hwf (conj Hsz (conj img22_indexable
    (events_roundtrip_on_image_listings img22 (image_to_photon_events img22)
       Hwf Hsz img22_indexable eq_refl)))).
Defined.

(** C10, as stated, fails: the float next above -0.5 lies strictly
    between -0.5 and 0.5, and its index is -1, not 0. *)
Lemma off_center_event_folds_to_zero_counterexample :
  ~ (forall (v : f64) (q : Q),
       has_value v q -> (- half < q)%Q -> (q < half)%Q -> index_of v = 0%Z).
Proof.
  intros Hclaim.
  specialize (Hclaim x_below (- half + (1 # 2 ^ 54))%Q).
  assert (Hv : has_value x_below (- half + (1 # 2 ^ 54))%Q)
    by (vm_compute; reflexivity).
  assert (Hlo : (- half < - half + (1 # 2 ^ 54))%Q) by (vm_compute; reflexivity).
  assert (Hhi : (- half + (1 # 2 ^ 54) < half)%Q) by (vm_compute; reflexivity).
  specialize (Hclaim Hv Hlo Hhi). vm_compute in Hclaim. discriminate Hclaim.
Qed.

(** C10, amended.  An event whose x (or y) is a float64 number with
    -0.5 + 2^-53 <= v < 0.5 (every float64 strictly between -0.5 and 0.5
    but the one next to -0.5) gets column (or row) index 0 from the
    truncation, where floor gives -1; the call does not reject it: when
    every coordinate of the sequence lies in [-0.5 + 2^-53, 2^63) the
    reconstruction succeeds, the event lands on an in-range cell, and that
    cell holds its intensity unless a later event lands there too. *)
Theorem off_center_event_folds_to_zero
    (evs : list (f64 * f64 * f64)) (i : nat) (e : f64 * f64 * f64) :
  evs !! i = Some e ->
  Forall (fun e' =>
            value_in just_above_minus_half (inject_Z (2 ^ 63)) e'.1.1 /\
            value_in just_above_minus_half (inject_Z (2 ^ 63)) e'.1.2) evs ->
  (value_in just_above_minus_half half e.1.1 ->
   trunc_col e = 0%Z /\ floor_col e = (-1)%Z) /\
  (value_in just_above_minus_half half e.1.2 ->
   trunc_row e = 0%Z /\ floor_row e = (-1)%Z) /\
  exists img r c,
    photon_events_to_image evs = Ok img /\
    lands e r c /\ r < shape0 img /\ c < shape1 img /\
    ((forall j e', i < j -> evs !! j = Some e' -> ~ lands e' r c) ->
     cell img r c = Some e.2).
Proof.
  intros Hi Hall.
  assert (He : e ∈ evs) by (eapply list_elem_of_lookup_2, Hi).
  assert (Hfrac : forall v, value_in just_above_minus_half half v ->
            index_of v = 0%Z /\ Qfloor (f64_real v - half) = (-1)%Z).
  { intros v Hv. apply value_in_units in Hv as (n & ok & -> & Hlo & Hhi).
    apply units_ge_just_above in Hlo. apply units_lt_half in Hhi.
    rewrite floor_sub_half. apply index_of_fraction. lia. }
  assert (Hpos : forall v, value_in just_above_minus_half (inject_Z (2 ^ 63)) v ->
            (0 <= index_of v)%Z).
  { intros v Hv. apply value_in_units in Hv as (n & ok & -> & Hlo & Hhi).
    apply units_ge_just_above in Hlo. apply units_lt_int in Hhi.
    apply index_of_nonneg. lia. }
  split; [apply Hfrac | split; [apply Hfrac |]].
  destruct (photon_events_to_image_lands evs)
    as (img & Hrun & Hwf & [_ Hmr] & [_ Hmc] & Hcell).
  { intros ->. discriminate Hi. }
  { eapply Forall_impl; [exact Hall |]. intros e' [Hx' Hy'].
    unfold trunc_row, trunc_col. auto. }
  rewrite Forall_forall in Hall. destruct (Hall e He) as [Hx Hy].
  pose proof (Hpos _ Hx) as Hc0. pose proof (Hpos _ Hy) as Hr0.
  fold (trunc_col e) in Hc0. fold (trunc_row e) in Hr0.
  assert (Hrle : (trunc_row e <= Z.of_nat (shape0 img) - 1)%Z)
    by (apply Hmr, list_elem_of_fmap_2, He).
  assert (Hcle : (trunc_col e <= Z.of_nat (shape1 img) - 1)%Z)
    by (apply Hmc, list_elem_of_fmap_2, He).
  exists img, (Z.to_nat (trunc_row e)), (Z.to_nat (trunc_col e)).
  assert (Hl : lands e (Z.to_nat (trunc_row e)) (Z.to_nat (trunc_col e)))
    by (unfold lands; lia).
  split; [exact Hrun |]. split; [exact Hl |].
  split; [lia |]. split; [lia |].
  intros Hlater.
  destruct (Hcell (Z.to_nat (trunc_row e)) (Z.to_nat (trunc_col e)))
    as [_ Hlast]; [lia | lia |].
  exact (Hlast i e Hi Hl Hlater).
Qed.

Lemma value_in_dyadic (lo hi : Q) (m e : Z) (q : Q) :
  has_value (f64_dyadic m e) q -> (lo <= q)%Q -> (q < hi)%Q ->
  value_in lo hi (f64_dyadic m e).
Proof. intros Hv Hlo Hhi. exists q. auto. Defined.

Lemma evs_off_in_range :
  Forall (fun e' : f64 * f64 * f64 =>
            value_in just_above_minus_half (inject_Z (2 ^ 63)) e'.1.1 /\
            value_in just_above_minus_half (inject_Z (2 ^ 63)) e'.1.2) evs_off.
Proof.
  unfold evs_off.
  apply Forall_cons; split.
  { split; [apply (value_in_dyadic _ _ _ _ (1 # 4)) |
            apply (value_in_dyadic _ _ _ _ (1 # 2))];
      solve [vm_compute; reflexivity | vm_compute; discriminate]. }
  apply Forall_cons; split.
  { split; [apply (value_in_dyadic _ _ _ _ (3 # 2)) |
            apply (value_in_dyadic _ _ _ _ (1 # 2))];
      solve [vm_compute; reflexivity | vm_compute; discriminate]. }
  apply Forall_nil. constructor.
Defined.

Lemma off_center_event_folds_to_zero_witness :
  let e := (f64_dyadic 1 (-2), f64_dyadic 1 (-1), f64_of_Z 7) in
  evs_off !! 0 = Some e /\
  value_in just_above_minus_half half e.1.1 /\
  trunc_col e = 0%Z /\ floor_col e = (-1)%Z /\
  exists img r c,
    photon_events_to_image evs_off = Ok img /\
    lands e r c /\ r < shape0 img /\ c < shape1 img /\
    ((forall j e', 0 < j -> evs_off !! j = Some e' -> ~ lands e' r c) ->
     cell img r c = Some e.2).
Proof.
  intros e.
  assert (Hx : value_in just_above_minus_half half e.1.1).
  { apply (value_in_dyadic _ _ _ _ (1 # 4));
      solve [vm_compute; reflexivity | vm_compute; discriminate]. }
  pose proof (off_center_event_folds_to_zero evs_off 0 e eq_refl evs_off_in_range)
    as (Hcol & _ & Himg).
  exact (conj eq_refl (conj Hx (conj (proj1 (Hcol Hx))
           (conj (proj2 (Hcol Hx)) Himg)))).
Defined.

(** * Further properties of the module *)

(** ** Extensions exclude one another *)

Lemma has_extension_shorter (e1 e2 filename : string) :
  has_extension e1 filename = true ->
  String.length e2 <= String.length e1 ->
  has_extension e2 filename = String.eqb (slice_last (String.length e2) e1) e2.
Proof.
  intros H1 Hlen. unfold has_extension in *.
  rewrite <- (slice_last_endswith (lower filename) e2).
  rewrite <- (slice_last_endswith (lower filename) e1) in H1.
  apply String.eqb_eq in H1.
  rewrite <- (slice_last_slice_last _ (String.length e1)) by exact Hlen.
  rewrite H1. reflexivity.
Qed.

Lemma exact_slice_true (ext filename : string) :
  lower ext = ext ->
  String.eqb (slice_last (String.length ext) filename) ext = true ->
  has_extension ext filename = true.
Proof.
  intros Hext Heq. apply String.eqb_eq in Heq.
  rewrite <- lower_slice_test, Heq, Hext. apply String.eqb_refl.
Qed.

Lemma endswith_has_extension (ext filename : string) :
  lower ext = ext -> endswith filename ext = true ->
  has_extension ext filename = true.
Proof.
  intros Hext Hend. apply exact_slice_true; [exact Hext |].
  rewrite slice_last_endswith. exact Hend.
Qed.

(** ** [get_image] on the recognised extensions *)

Lemma zip_replicate_r {A B} (l : list A) (b : B) :
  zip l (replicate (length l) b) = (fun a => (a, b)) <$> l.
Proof. induction l as [|a l IH]; [reflexivity |]. csimpl. rewrite IH. reflexivity. Qed.

(** X1. For a file name ending in .h5 in any letter case, [get_image]
    prints nothing and returns the events the reader found, in order, each
    with intensity 1 appended; a failure of the reader is passed on. *)
Theorem get_image_h5 {pixel : Type} `{DType pixel}
    (h5_events : string -> result (list (f64 * f64)))
    (imread : string -> result (ndarray2 pixel))
    (nxload : string -> result (list (string * result (list (ndarray2 pixel)))))
    (filename : string) :
  has_extension ".h5" filename = true ->
  get_image h5_events imread nxload filename =
  match h5_events filename with
  | Ok XY => ([], Ok (Events ((fun xy => (xy, f64_one)) <$> XY)))
  | Raise e => ([], Raise e)
  end.
Proof.
  intros Hh5. unfold get_image.
  pose proof (lower_slice_test ".h5" filename) as T1.
  cbn [String.length] in T1. rewrite T1, Hh5.
  destruct (h5_events filename) as [XY | e]; [| reflexivity].
  cbn [lift io_bind io_ret app]. rewrite zip_replicate_r. reflexivity.
Qed.

Lemma get_image_h5_witness :
  has_extension ".h5" "run7.H5" = true /\
  get_image (pixel := Z) (fun _ => Ok [(center 1, center 0)])
            (fun _ => Raise IOError) (fun _ => Raise IOError) "run7.H5" =
  ([], Ok (Events ((fun xy => (xy, f64_one)) <$> [(center 1, center 0)]))).
Proof.
  exact (conj eq_refl
    (get_image_h5 (pixel := Z) (fun _ => Ok [(center 1, center 0)])
       (fun _ => Raise IOError) (fun _ => Raise IOError) "run7.H5" eq_refl)).
Defined.

(** X2. For a file name ending in .tif in any letter case whose reader
    gives a non-empty image of at most 2^52 rows and columns,
    [get_image] prints nothing and returns one event per pixel, and
    [photon_events_to_image] applied to those events gives back the image
    that was read, converted to float64. *)
Theorem get_image_tif_roundtrip {pixel : Type} `{DType pixel}
    (h5_events : string -> result (list (f64 * f64)))
    (imread : string -> result (ndarray2 pixel))
    (nxload : string -> result (list (string * result (list (ndarray2 pixel)))))
    (filename : string) (image : ndarray2 pixel) :
  has_extension ".tif" filename = true ->
  imread filename = Ok image ->
  well_shaped image -> 1 <= shape0 image * shape1 image -> indexable image ->
  exists evs,
    get_image h5_events imread nxload filename = ([], Ok (Events evs)) /\
    length evs = shape0 image * shape1 image /\
    photon_events_to_image evs = Ok (image_astype_float64 image).
Proof.
  intros Htif Hread Hwf Hsize Hidx. exists (image_to_photon_events image).
  split; [| split].
  - unfold get_image.
    pose proof (lower_slice_test ".h5" filename) as T1.
    pose proof (lower_slice_test ".tif" filename) as T2.
    cbn [String.length] in T1, T2.
    rewrite T1, (has_extension_shorter ".tif" ".h5" filename Htif) by (simpl; lia).
    cbn [String.length]. change (slice_last 3 ".tif" =? ".h5")%string with false.
    cbn iota. rewrite T2, Htif, Hread. reflexivity.
  - apply length_image_to_photon_events, Hwf.
  - apply roundtrip_image; assumption.
Qed.

Lemma get_image_tif_roundtrip_witness :
  has_extension ".tif" "still.TIF" = true /\
  well_shaped img22 /\ 1 <= shape0 img22 * shape1 img22 /\ indexable img22 /\
  exists evs,
    get_image (fun _ => Raise IOError) (fun _ => Ok img22)
              (fun _ => Raise IOError) "still.TIF" = ([], Ok (Events evs)) /\
    length evs = shape0 img22 * shape1 img22 /\
    photon_events_to_image evs = Ok (image_astype_float64 img22).
Proof.
  assert (Hwf : well_shaped img22) by reflexivity.
  assert (Hsz : 1 <= shape0 img22 * shape1 img22) by (simpl; lia).
  exact (conj eq_refl (conj Hwf (conj Hsz (conj img22_indexable
    (get_image_tif_roundtrip (fun _ => Raise IOError) (fun _ => Ok img22)
       (fun _ => Raise IOError) "still.TIF" img22 eq_refl eq_refl Hwf Hsz
       img22_indexable))))).
Defined.

(** ** [load_nxfile] *)

Lemma last_scan_key_from (keys : list string) :
  forall lb0,
    Forall (fun k => contains "scan" k = false) keys ->
    foldl (fun lb key => if contains "scan" key then Some key else lb) lb0 keys
    = lb0.
Proof.
  induction keys as [|k keys IH]; intros lb0 Hno; [reflexivity |].
  apply Forall_cons in Hno as [Hk Hno]. simpl. rewrite Hk. apply IH, Hno.
Qed.

Lemma last_scan_key_app (before after : list string) (lb : string) :
  contains "scan" lb = true ->
  Forall (fun k => contains "scan" k = false) after ->
  last_scan_key (before ++ lb :: after) = Some lb.
Proof.
  intros Hlb Hno. unfold last_scan_key. rewrite foldl_app. simpl.
  rewrite Hlb. apply last_scan_key_from, Hno.
Qed.

Lemma getitem_key_app {A} (before after : list (string * A)) (lb : string) (v : A) :
  Forall (fun kv => kv.1 <> lb) before ->
  getitem_key (before ++ (lb, v) :: after) lb = Some v.
Proof.
  induction before as [|[k w] before IH]; intros Hne; simpl.
  - rewrite String.eqb_refl. reflexivity.
  - apply Forall_cons in Hne as [Hk Hne]. simpl in Hk.
    rewrite (proj2 (String.eqb_neq k lb) Hk). apply IH, Hne.
Qed.

Lemma frames_copied {pixel : Type} (d : ndarray2 pixel) (data : list (ndarray2 pixel)) :
  (fun i => default d (data !! i)) <$> seq 0 (length data) = data.
Proof.
  apply list_eq. intros i. rewrite list_lookup_fmap.
  destruct (decide (i < length data)) as [Hi | Hi].
  - rewrite lookup_seq_lt by exact Hi. simpl.
    destruct (lookup_lt_is_Some_2 data i Hi) as [x Hx]. rewrite Hx. reflexivity.
  - rewrite lookup_seq_ge by lia. rewrite lookup_ge_None_2 by lia. reflexivity.
Qed.

(** X3. When the file holds an entry whose key contains 'scan', no later
    key contains 'scan' and no earlier entry has the same key,
    [load_nxfile] prints one line with the base name and the frame count
    and returns every frame of that entry, in order and unchanged: the
    last scan entry is the one used, and nothing is averaged. *)
Theorem load_nxfile_last_scan {pixel : Type}
    (nxload : string -> result (list (string * result (list (ndarray2 pixel)))))
    (filename lb : string)
    (before after : list (string * result (list (ndarray2 pixel))))
    (data : list (ndarray2 pixel)) :
  nxload filename = Ok (before ++ (lb, Ok data) :: after) ->
  contains "scan" lb = true ->
  Forall (fun kv => contains "scan" kv.1 = false) after ->
  Forall (fun kv => kv.1 <> lb) before ->
  load_nxfile nxload filename =
  (["NXS file " ++ last_component EmptyString filename ++ " contains "
      ++ format_d (length data) ++ " image(s)."]%string,
   Ok data).
Proof.
  intros Hload Hlb Hafter Hbefore. unfold load_nxfile. rewrite Hload.
  cbn [lift io_bind app]. rewrite fmap_app, fmap_cons. cbn [fst].
  rewrite (last_scan_key_app _ _ lb Hlb) by (apply Forall_fmap; exact Hafter).
  rewrite (getitem_key_app _ _ lb (Ok data) Hbefore).
  cbn. rewrite frames_copied. reflexivity.
Qed.

Lemma load_nxfile_last_scan_witness :
  contains "scan" "scan_002" = true /\
  load_nxfile (fun _ => Ok nx_two_scans) "/data/run/f12.nxs" =
  (["NXS file f12.nxs contains 2 image(s)."%string],
   Ok [frame22; frame12]).
Proof.
  split; [reflexivity |].
  refine (load_nxfile_last_scan (fun _ => Ok nx_two_scans) "/data/run/f12.nxs"
            "scan_002"
            [("scan_001"%string, Ok [frame11]);
             ("meta"%string, Raise IOError)]
            [] [frame22; frame12] eq_refl eq_refl _ _).
  - apply Forall_nil. constructor.
  - repeat (apply Forall_cons; split; [discriminate |]).
    apply Forall_nil. constructor.
Defined.

(** X4. When no key of the file contains 'scan', [load_nxfile] raises
    UnboundLocalError (the variable [lb] was never assigned) before
    printing anything, and [get_image] on a .nxs name passes that on. *)
Theorem load_nxfile_no_scan_key {pixel : Type} `{DType pixel}
    (h5_events : string -> result (list (f64 * f64)))
    (imread : string -> result (ndarray2 pixel))
    (nxload : string -> result (list (string * result (list (ndarray2 pixel)))))
    (filename : string) (fload : list (string * result (list (ndarray2 pixel)))) :
  nxload filename = Ok fload ->
  Forall (fun kv => contains "scan" kv.1 = false) fload ->
  load_nxfile nxload filename = ([], Raise UnboundLocalError) /\
  (has_extension ".nxs" filename = true ->
   get_image h5_events imread nxload filename = ([], Raise UnboundLocalError)).
Proof.
  intros Hload Hno.
  assert (Hnx : load_nxfile nxload filename = ([], Raise UnboundLocalError)).
  { unfold load_nxfile. rewrite Hload. cbn [lift io_bind app].
    unfold last_scan_key.
    rewrite last_scan_key_from by (apply Forall_fmap; exact Hno). reflexivity. }
  split; [exact Hnx |]. intros Hext. unfold get_image.
  pose proof (lower_slice_test ".h5" filename) as T1.
  pose proof (lower_slice_test ".tif" filename) as T2.
  pose proof (lower_slice_test ".nxs" filename) as T3.
  cbn [String.length] in T1, T2, T3.
  rewrite T1, (has_extension_shorter ".nxs" ".h5" filename Hext) by (simpl; lia).
  cbn [String.length]. change (slice_last 3 ".nxs" =? ".h5")%string with false.
  cbn iota.
  rewrite T2, (has_extension_shorter ".nxs" ".tif" filename Hext) by (simpl; lia).
  cbn [String.length]. change (slice_last 4 ".nxs" =? ".tif")%string with false.
  cbn iota. rewrite T3, Hext, Hnx. reflexivity.
Qed.

Lemma load_nxfile_no_scan_key_witness :
  load_nxfile (fun _ => Ok [("entry"%string, Ok [frame22])]) "f.nxs" =
    ([], Raise UnboundLocalError) /\
  (has_extension ".nxs" "f.nxs" = true ->
   get_image (fun _ => Raise IOError) (fun _ => Raise IOError)
             (fun _ => Ok [("entry"%string, Ok [frame22])]) "f.nxs" =
   ([], Raise UnboundLocalError)).
Proof.
  refine (load_nxfile_no_scan_key (fun _ => Raise IOError) (fun _ => Raise IOError)
            (fun _ => Ok [("entry"%string, Ok [frame22])]) "f.nxs"
            [("entry"%string, Ok [frame22])] eq_refl _).
  apply Forall_cons; split; [reflexivity |]. apply Forall_nil. constructor.
Defined.

(** X5. Under the same conditions on the file, [get_image] on a name
    ending in .nxs prints that one line and returns a list with one events
    array per frame, in frame order, each the listing of its frame. *)
Theorem get_image_nxs {pixel : Type} `{DType pixel}
    (h5_events : string -> result (list (f64 * f64)))
    (imread : string -> result (ndarray2 pixel))
    (nxload : string -> result (list (string * result (list (ndarray2 pixel)))))
    (filename lb : string)
    (before after : list (string * result (list (ndarray2 pixel))))
    (data : list (ndarray2 pixel)) :
  has_extension ".nxs" filename = true ->
  nxload filename = Ok (before ++ (lb, Ok data) :: after) ->
  contains "scan" lb = true ->
  Forall (fun kv => contains "scan" kv.1 = false) after ->
  Forall (fun kv => kv.1 <> lb) before ->
  get_image h5_events imread nxload filename =
  (["NXS file " ++ last_component EmptyString filename ++ " contains "
      ++ format_d (length data) ++ " image(s)."]%string,
   Ok (EventsList (image_to_photon_events <$> data))).
Proof.
  intros Hext Hload Hlb Hafter Hbefore. unfold get_image.
  pose proof (lower_slice_test ".h5" filename) as T1.
  pose proof (lower_slice_test ".tif" filename) as T2.
  pose proof (lower_slice_test ".nxs" filename) as T3.
  cbn [String.length] in T1, T2, T3.
  rewrite T1, (has_extension_shorter ".nxs" ".h5" filename Hext) by (simpl; lia).
  cbn [String.length]. change (slice_last 3 ".nxs" =? ".h5")%string with false.
  cbn iota.
  rewrite T2, (has_extension_shorter ".nxs" ".tif" filename Hext) by (simpl; lia).
  cbn [String.length]. change (slice_last 4 ".nxs" =? ".tif")%string with false.
  cbn iota. rewrite T3, Hext.
  rewrite (load_nxfile_last_scan nxload filename lb before after data
             Hload Hlb Hafter Hbefore).
  cbn [io_bind io_ret]. rewrite app_nil_r. reflexivity.
Qed.

Lemma get_image_nxs_witness :
  has_extension ".nxs" "/data/run/f12.NXS" = true /\
  contains "scan" "scan_002" = true /\
  get_image (fun _ => Raise IOError) (fun _ => Raise IOError)
            (fun _ => Ok nx_two_scans) "/data/run/f12.NXS" =
  (["NXS file f12.NXS contains 2 image(s)."%string],
   Ok (EventsList (image_to_photon_events <$> [frame22; frame12]))).
Proof.
  split; [reflexivity |]. split; [reflexivity |].
  refine (get_image_nxs (fun _ => Raise IOError) (fun _ => Raise IOError)
            (fun _ => Ok nx_two_scans) "/data/run/f12.NXS" "scan_002"
            [("scan_001"%string, Ok [frame11]);
             ("meta"%string, Raise IOError)]
            [] [frame22; frame12] eq_refl eq_refl eq_refl _ _).
  - apply Forall_nil. constructor.
  - repeat (apply Forall_cons; split; [discriminate |]).
    apply Forall_nil. constructor.
Defined.

(** ** [get_spectrum] on the recognised extensions *)




(** X7. For a file name ending in exactly .txt or .dat (lower case),
    [get_spectrum] prints nothing and hands back what [np.loadtxt] gives
    for that name, value or failure, the two extensions alike. *)
Theorem get_spectrum_text {table : Type}
    (loadtxt : string -> result table) (h5_spectrum : string -> result (list Q))
    (filename : string) :
  endswith filename ".txt" = true \/ endswith filename ".dat" = true ->
  get_spectrum loadtxt h5_spectrum filename =
  match loadtxt filename with
  | Ok t => ([], Ok (Table t))
  | Raise e => ([], Raise e)
  end.
Proof.
  intros Hext. unfold get_spectrum.
  pose proof (slice_last_endswith filename ".txt") as T1.
  pose proof (slice_last_endswith filename ".dat") as T2.
  cbn [String.length] in T1, T2. rewrite T1, T2.
  destruct (endswith filename ".txt").
  - destruct (loadtxt filename); reflexivity.
  - destruct Hext as [Hext | Hext]; [discriminate |]. rewrite Hext.
    destruct (loadtxt filename); reflexivity.
Qed.

Lemma get_spectrum_text_witness :
  (endswith "peak.txt" ".txt" = true \/ endswith "peak.txt" ".dat" = true) /\
  get_spectrum (fun _ => Ok 3) (fun _ => Raise IOError) "peak.txt" =
  ([], Ok (Table 3)).
Proof.
  exact (conj (or_introl eq_refl)
    (get_spectrum_text (fun _ => Ok 3) (fun _ => Raise IOError) "peak.txt"
       (or_introl eq_refl))).
Defined.

(** X8. [get_spectrum] matches the text extensions by exact spelling: a
    file name that ends in .spec in any letter case, or in .txt or .dat
    with some letter in upper case, raises 'Wrong file extension' without
    calling a reader. *)
Theorem get_spectrum_text_rejected {table : Type}
    (loadtxt : string -> result table) (h5_spectrum : string -> result (list Q))
    (filename : string) :
  has_extension ".spec" filename = true \/
  ((has_extension ".txt" filename = true \/ has_extension ".dat" filename = true) /\
   endswith filename ".txt" = false /\ endswith filename ".dat" = false) ->
  get_spectrum loadtxt h5_spectrum filename =
  ([], Raise (Exception "Wrong file extension")).
Proof.
  intros [Hspec | (Hci & Htxt & Hdat)];
    [apply get_spectrum_spec_never_loaded, Hspec |].
  unfold get_spectrum.
  pose proof (slice_last_endswith filename ".txt") as T1.
  pose proof (slice_last_endswith filename ".dat") as T2.
  pose proof (lower_slice_test ".h5" filename) as T3.
  cbn [String.length] in T1, T2, T3.
  rewrite T1, Htxt, T2, Hdat, (slice4_never_spec filename), T3.
  assert (Hh5 : has_extension ".h5" filename = false).
  { destruct Hci as [H | H];
      rewrite (has_extension_shorter _ ".h5" filename H) by (simpl; lia);
      reflexivity. }
  rewrite Hh5. reflexivity.
Qed.

Lemma get_spectrum_text_rejected_witness :
  ((has_extension ".txt" "PEAK.Txt" = true \/ has_extension ".dat" "PEAK.Txt" = true) /\
   endswith "PEAK.Txt" ".txt" = false /\ endswith "PEAK.Txt" ".dat" = false) /\
  get_spectrum (fun _ => Ok 3) (fun _ => Raise IOError) "PEAK.Txt" =
  ([], Raise (Exception "Wrong file extension")).
Proof.
  assert (H : (has_extension ".txt" "PEAK.Txt" = true \/
               has_extension ".dat" "PEAK.Txt" = true) /\
              endswith "PEAK.Txt" ".txt" = false /\
              endswith "PEAK.Txt" ".dat" = false)
    by (split; [left; reflexivity | split; reflexivity]).
  exact (conj H
    (get_spectrum_text_rejected (fun _ => Ok 3) (fun _ => Raise IOError)
       "PEAK.Txt" (or_intror H))).
Defined.

(** ** The reconstruction on arbitrary coordinates *)

Lemma wrap_index_raises (n : nat) (i : Z) (e : exn) :
  wrap_index n i = Raise e -> e = IndexError.
Proof.
  unfold wrap_index.
  destruct (_ && _); [discriminate |]. destruct (_ && _); [discriminate |].
  intros [= <-]. reflexivity.
Qed.

Lemma wrap_index_Ok (n : nat) (i : Z) (k : nat) :
  wrap_index n i = Ok k <->
  (- Z.of_nat n <= i < Z.of_nat n)%Z /\
  Z.of_nat k = (if (0 <=? i)%Z then i else i + Z.of_nat n)%Z.
Proof.
  unfold wrap_index.
  destruct (Z.leb_spec 0 i) as [H0 | H0]; destruct (Z.ltb_spec i (Z.of_nat n)) as [H1 | H1];
    cbn [andb].
  - split; [intros [= <-]; lia | intros [_ Hk]; f_equal; lia].
  - destruct (Z.leb_spec (- Z.of_nat n) i); destruct (Z.ltb_spec i 0); cbn [andb];
      (split; [try discriminate; intros [= <-]; lia | intros [? ?]; lia]).
  - destruct (Z.leb_spec (- Z.of_nat n) i); destruct (Z.ltb_spec i 0); cbn [andb];
      try lia.
    + split; [intros [= <-]; lia | intros [_ Hk]; f_equal; lia].
    + split; [discriminate | intros [? ?]; lia].
  - lia.
Qed.

Lemma setitem_raises (a : ndarray2 f64) (i j : Z) (v : f64) (e : exn) :
  setitem a i j v = Raise e -> e = IndexError.
Proof.
  unfold setitem.
  destruct (wrap_index (shape0 a) i) as [r|e0] eqn:Hr; cbn [mbind result_bind].
  - destruct (wrap_index (shape1 a) j) as [c|e1] eqn:Hc; cbn [mbind result_bind].
    + discriminate.
    + intros [= <-]. eapply wrap_index_raises, Hc.
  - intros [= <-]. eapply wrap_index_raises, Hr.
Qed.

Lemma setitem_Ok (a a' : ndarray2 f64) (i j : Z) (v : f64) :
  setitem a i j v = Ok a' ->
  exists r c, wrap_index (shape0 a) i = Ok r /\ wrap_index (shape1 a) j = Ok c /\
    a' = Array2 (shape0 a) (shape1 a) (<[r * shape1 a + c := v]> (flat a)).
Proof.
  unfold setitem.
  destruct (wrap_index (shape0 a) i) as [r|] eqn:Hr; [| discriminate].
  destruct (wrap_index (shape1 a) j) as [c|] eqn:Hc; [| discriminate].
  cbn [mbind result_bind]. intros [= <-]. exists r, c. auto.
Qed.

Lemma setitem_fancy_raises (w : list (Z * Z * f64)) :
  forall a e, setitem_fancy a w = Raise e -> e = IndexError.
Proof.
  induction w as [|[[i j] v] w IH]; intros a e; [discriminate |].
  cbn [setitem_fancy].
  destruct (setitem a i j v) as [a1|e1] eqn:Hset; cbn [mbind result_bind].
  - apply IH.
  - intros [= <-]. eapply setitem_raises, Hset.
Qed.

(** The assignments succeed exactly when every index is within
    [-n, n) of its axis. *)
Lemma setitem_fancy_Ok_iff (w : list (Z * Z * f64)) :
  forall a,
    (exists a', setitem_fancy a w = Ok a') <->
    Forall (fun t => (- Z.of_nat (shape0 a) <= t.1.1 < Z.of_nat (shape0 a))%Z /\
                     (- Z.of_nat (shape1 a) <= t.1.2 < Z.of_nat (shape1 a))%Z) w.
Proof.
  induction w as [|[[i j] v] w IH]; intros a.
  - split; [intros _; apply Forall_nil; constructor | intros _; exists a; reflexivity].
  - cbn [setitem_fancy]. rewrite Forall_cons. cbn [fst snd]. split.
    + intros [a' Hrun].
      destruct (setitem a i j v) as [a1|] eqn:Hset; [| discriminate].
      cbn [mbind result_bind] in Hrun.
      destruct (setitem_Ok _ _ _ _ _ Hset) as (r & c & Hr & Hc & ->).
      apply wrap_index_Ok in Hr as [Hr _]. apply wrap_index_Ok in Hc as [Hc _].
      split; [split; assumption |].
      exact (proj1 (IH _) (ex_intro _ a' Hrun)).
    + intros [[Hi Hj] Hall].
      destruct (wrap_index (shape0 a) i) as [r|e] eqn:Hr.
      2:{ exfalso.
          assert (H : exists k, wrap_index (shape0 a) i = Ok k).
          { exists (Z.to_nat (if (0 <=? i)%Z then i else i + Z.of_nat (shape0 a))%Z).
            apply wrap_index_Ok. split; [exact Hi |].
            destruct (Z.leb_spec 0 i); lia. }
          destruct H as [k Hk]. congruence. }
      destruct (wrap_index (shape1 a) j) as [c|e] eqn:Hc.
      2:{ exfalso.
          assert (H : exists k, wrap_index (shape1 a) j = Ok k).
          { exists (Z.to_nat (if (0 <=? j)%Z then j else j + Z.of_nat (shape1 a))%Z).
            apply wrap_index_Ok. split; [exact Hj |].
            destruct (Z.leb_spec 0 j); lia. }
          destruct H as [k Hk]. congruence. }
      unfold setitem. rewrite Hr, Hc. cbn [mbind result_bind].
      apply (proj2 (IH _)). exact Hall.
Qed.

(** What the assignments leave in each cell. *)
Lemma setitem_fancy_cells (w : list (Z * Z * f64)) :
  forall a a',
    well_shaped a -> setitem_fancy a w = Ok a' ->
    forall r c, r < shape0 a -> c < shape1 a ->
      ((forall t, t ∈ w ->
          ~ (wrap_index (shape0 a) t.1.1 = Ok r /\
             wrap_index (shape1 a) t.1.2 = Ok c)) ->
       cell a' r c = cell a r c) /\
      (forall k t, w !! k = Some t ->
         wrap_index (shape0 a) t.1.1 = Ok r ->
         wrap_index (shape1 a) t.1.2 = Ok c ->
         (forall k' t', k < k' -> w !! k' = Some t' ->
            ~ (wrap_index (shape0 a) t'.1.1 = Ok r /\
               wrap_index (shape1 a) t'.1.2 = Ok c)) ->
         cell a' r c = Some t.2).
Proof.
  induction w as [|[[i j] v] w IH]; intros a a' Hwf Hrun r c Hr Hc.
  - injection Hrun as <-. split; [reflexivity |]. intros k t Hk. discriminate Hk.
  - cbn [setitem_fancy] in Hrun.
    destruct (setitem a i j v) as [a1|] eqn:Hset; [| discriminate].
    cbn [mbind result_bind] in Hrun.
    destruct (setitem_Ok _ _ _ _ _ Hset) as (r0 & c0 & Hr0 & Hc0 & Ha1).
    assert (Hwf1 : well_shaped a1).
    { subst a1. unfold well_shaped; cbn [flat shape0 shape1].
      rewrite length_insert. exact Hwf. }
    assert (Hs0 : shape0 a1 = shape0 a) by (subst a1; reflexivity).
    assert (Hs1 : shape1 a1 = shape1 a) by (subst a1; reflexivity).
    destruct (IH a1 a' Hwf1 Hrun r c) as [IHnone IHlast];
      [rewrite Hs0; exact Hr | rewrite Hs1; exact Hc |].
    rewrite Hs0, Hs1 in IHnone, IHlast.
    assert (Hhead : cell a1 r c =
              if decide (r0 = r /\ c0 = c) then Some v else cell a r c).
    { subst a1. unfold cell; cbn [flat shape1].
      pose proof (wrap_index_ok _ _ _ Hc0) as Hc0lt.
      destruct (decide (r0 = r /\ c0 = c)) as [[-> ->] | Hne].
      - apply list_lookup_insert_eq. rewrite Hwf. apply flat_index_lt; assumption.
      - apply list_lookup_insert_ne. intros Heq.
        apply flat_index_inj in Heq; [| assumption | assumption]. tauto. }
    split.
    + intros Hnone. rewrite IHnone.
      * rewrite Hhead. destruct (decide _) as [[-> ->] | _]; [| reflexivity].
        exfalso. apply (Hnone (i, j, v)); [left | split; assumption].
      * intros t Ht. apply Hnone. right. exact Ht.
    + intros k t Hk Htr Htc Hlater. destruct k as [|k].
      * injection Hk as <-. cbn [fst snd] in *.
        rewrite IHnone.
        -- rewrite Hhead. rewrite Hr0 in Htr. rewrite Hc0 in Htc.
           injection Htr as ->. injection Htc as ->.
           destruct (decide _) as [_ | Hne]; [reflexivity | tauto].
        -- intros t Ht. apply list_elem_of_lookup_1 in Ht as [k' Hk'].
           apply (Hlater (S k') t); [lia | exact Hk'].
      * apply (IHlast k t Hk Htr Htc).
        intros k' t' Hkk' Hk'. apply (Hlater (S k') t'); [lia | exact Hk'].
Qed.

Lemma photon_events_to_image_unfold (evs : list (f64 * f64 * f64)) (ym xm : Z) :
  is_max ym (trunc_row <$> evs) -> is_max xm (trunc_col <$> evs) ->
  photon_events_to_image evs =
  (image ← zeros (ym + 1) (xm + 1); setitem_fancy image (writes evs)).
Proof.
  intros Hym Hxm. unfold photon_events_to_image.
  rewrite yind_eq, xind_eq, zip_indices_eq.
  destruct evs as [|e evs].
  { destruct Hym as [Hin _]. apply elem_of_nil in Hin. contradiction. }
  destruct (amax_cons (trunc_row e) (trunc_row <$> evs)) as (ym' & Hy & Hymax).
  destruct (amax_cons (trunc_col e) (trunc_col <$> evs)) as (xm' & Hx & Hxmax).
  change (trunc_row <$> e :: evs) with (trunc_row e :: (trunc_row <$> evs)) in *.
  change (trunc_col <$> e :: evs) with (trunc_col e :: (trunc_col <$> evs)) in *.
  rewrite Hy, Hx. cbn [mbind result_bind].
  rewrite (is_max_unique _ _ _ Hymax Hym), (is_max_unique _ _ _ Hxmax Hxm).
  reflexivity.
Qed.

Lemma is_max_exists (e : f64 * f64 * f64) (evs : list (f64 * f64 * f64)) (f : f64 * f64 * f64 -> Z) :
  exists m, is_max m (f <$> e :: evs).
Proof.
  destruct (amax_cons (f e) (f <$> evs)) as (m & _ & Hm). exists m. exact Hm.
Qed.

(** X9. With [ym] and [xm] the greatest row and column index of the
    events: the call raises ValueError when one of them is below -1
    (a negative dimension), raises IndexError when the dimensions are
    valid but some index lies below [-(ym+1)] resp. [-(xm+1)], and
    otherwise returns a well-formed image of shape (ym+1, xm+1). *)
Theorem photon_events_to_image_outcome (evs : list (f64 * f64 * f64)) (ym xm : Z) :
  is_max ym (trunc_row <$> evs) -> is_max xm (trunc_col <$> evs) ->
  ((ym < -1 \/ xm < -1)%Z -> photon_events_to_image evs = Raise ValueError) /\
  ((-1 <= ym)%Z -> (-1 <= xm)%Z ->
   Exists (fun e => (trunc_row e < - (ym + 1) \/ trunc_col e < - (xm + 1))%Z) evs ->
   photon_events_to_image evs = Raise IndexError) /\
  (Forall (fun e => (- (ym + 1) <= trunc_row e)%Z /\
                    (- (xm + 1) <= trunc_col e)%Z) evs ->
   exists img, photon_events_to_image evs = Ok img /\ well_shaped img /\
     Z.of_nat (shape0 img) = (ym + 1)%Z /\ Z.of_nat (shape1 img) = (xm + 1)%Z).
Proof.
  intros Hym Hxm. rewrite (photon_events_to_image_unfold evs ym xm Hym Hxm).
  unfold zeros. split; [| split].
  - intros Hneg.
    replace ((ym + 1 <? 0)%Z || (xm + 1 <? 0)%Z) with true; [reflexivity |].
    symmetry. apply orb_true_iff.
    destruct Hneg; [left | right]; apply Z.ltb_lt; lia.
  - intros Hy Hx Hbad.
    replace ((ym + 1 <? 0)%Z || (xm + 1 <? 0)%Z) with false
      by (symmetry; apply orb_false_iff; split; apply Z.ltb_ge; lia).
    cbn [mbind result_bind]. set (z := Array2 _ _ _).
    destruct (setitem_fancy z (writes evs)) as [img | e] eqn:Hrun.
    + exfalso.
      pose proof (proj1 (setitem_fancy_Ok_iff (writes evs) z)
                        (ex_intro _ img Hrun)) as Hall.
      unfold writes in Hall. rewrite Forall_fmap, Forall_forall in Hall.
      apply Exists_exists in Hbad as (e & He & Hlow).
      specialize (Hall e He). unfold z in Hall. cbn in Hall. lia.
    + f_equal. eapply setitem_fancy_raises, Hrun.
  - intros Hall.
    assert (Hy0 : (0 <= ym)%Z).
    { destruct Hym as [Hin _]. apply list_elem_of_fmap in Hin as (e & -> & He).
      rewrite Forall_forall in Hall. destruct (Hall e He). lia. }
    assert (Hx0 : (0 <= xm)%Z).
    { destruct Hxm as [Hin _]. apply list_elem_of_fmap in Hin as (e & -> & He).
      rewrite Forall_forall in Hall. destruct (Hall e He). lia. }
    replace ((ym + 1 <? 0)%Z || (xm + 1 <? 0)%Z) with false
      by (symmetry; apply orb_false_iff; split; apply Z.ltb_ge; lia).
    cbn [mbind result_bind]. set (z := Array2 _ _ _).
    destruct (proj2 (setitem_fancy_Ok_iff (writes evs) z)) as [img Hrun].
    { unfold writes. rewrite Forall_fmap, Forall_forall. intros e He.
      rewrite Forall_forall in Hall. destruct (Hall e He) as [Hr Hc].
      destruct Hym as [_ Hyub]. destruct Hxm as [_ Hxub].
      pose proof (Hyub _ (list_elem_of_fmap_2 trunc_row _ _ He)).
      pose proof (Hxub _ (list_elem_of_fmap_2 trunc_col _ _ He)).
      unfold z. cbn. lia. }
    exists img. split; [exact Hrun |].
    apply setitem_fancy_ok in Hrun as (H0 & H1 & Hl & _).
    unfold well_shaped. rewrite Hl, H0, H1. unfold z. cbn [shape0 shape1 flat].
    rewrite length_replicate. repeat split; lia.
Qed.

Lemma photon_events_to_image_outcome_witness :
  is_max 0 (trunc_row <$> evs_neg) /\ is_max 2 (trunc_col <$> evs_neg) /\
  exists img, photon_events_to_image evs_neg = Ok img /\ well_shaped img /\
    Z.of_nat (shape0 img) = (0 + 1)%Z /\ Z.of_nat (shape1 img) = (2 + 1)%Z.
Proof.
  assert (Er : trunc_row <$> evs_neg = [0; 0]%Z) by (vm_compute; reflexivity).
  assert (Ec : trunc_col <$> evs_neg = [-2; 2]%Z) by (vm_compute; reflexivity).
  assert (Hr : is_max 0 (trunc_row <$> evs_neg)).
  { rewrite Er. split; [left |]. intros z Hz.
    apply elem_of_cons in Hz as [-> | Hz]; [discriminate |].
    apply elem_of_cons in Hz as [-> | Hz]; [discriminate |].
    apply elem_of_nil in Hz. contradiction. }
  assert (Hc : is_max 2 (trunc_col <$> evs_neg)).
  { rewrite Ec. split; [right; left |]. intros z Hz.
    apply elem_of_cons in Hz as [-> | Hz]; [discriminate |].
    apply elem_of_cons in Hz as [-> | Hz]; [discriminate |].
    apply elem_of_nil in Hz. contradiction. }
  split; [exact Hr |]. split; [exact Hc |].
  apply (proj2 (proj2 (photon_events_to_image_outcome evs_neg 0 2 Hr Hc))).
  repeat (apply Forall_cons; split; [split; vm_compute; discriminate |]).
  apply Forall_nil. constructor.
Defined.

(** X10. Whenever [photon_events_to_image] returns an image, each cell
    holds 0 if no event is assigned to it and otherwise the intensity of
    the last event assigned to it, where a negative index counts from the
    end of its axis: an event left of or above the origin pixel is
    written near the opposite edge. *)
Theorem photon_events_to_image_wraps (evs : list (f64 * f64 * f64)) (img : ndarray2 f64) :
  photon_events_to_image evs = Ok img ->
  forall r c, r < shape0 img -> c < shape1 img ->
    ((forall e, e ∈ evs -> ~ lands_wrapped (shape0 img) (shape1 img) e r c) ->
     cell img r c = Some f64_zero) /\
    (forall i e, evs !! i = Some e ->
       lands_wrapped (shape0 img) (shape1 img) e r c ->
       (forall j e', i < j -> evs !! j = Some e' ->
          ~ lands_wrapped (shape0 img) (shape1 img) e' r c) ->
       cell img r c = Some e.2).
Proof.
  intros Hrun r c Hr Hc.
  destruct evs as [|e0 evs]; [discriminate |].
  destruct (is_max_exists e0 evs trunc_row) as [ym Hym].
  destruct (is_max_exists e0 evs trunc_col) as [xm Hxm].
  rewrite (photon_events_to_image_unfold _ ym xm Hym Hxm) in Hrun.
  unfold zeros in Hrun. destruct (_ || _); [discriminate |].
  cbn [mbind result_bind] in Hrun.
  set (z := Array2 _ _ _) in Hrun.
  assert (Hwfz : well_shaped z)
    by (unfold well_shaped, z; cbn [flat shape0 shape1]; apply length_replicate).
  destruct (setitem_fancy_ok _ _ _ Hrun) as (Hs0 & Hs1 & _ & _).
  destruct (setitem_fancy_cells (writes (e0 :: evs)) z img Hwfz Hrun r c)
    as [Hnone Hlast]; [lia | lia |].
  rewrite <- Hs0, <- Hs1 in Hnone, Hlast.
  assert (Hz : cell z r c = Some f64_zero).
  { unfold cell, z; cbn [flat shape1]. apply lookup_replicate_2.
    rewrite Hs0 in Hr. rewrite Hs1 in Hc.
    unfold z in Hr, Hc. cbn [shape0 shape1] in Hr, Hc.
    apply flat_index_lt; assumption. }
  split.
  - intros Hno. rewrite Hnone; [exact Hz |].
    intros t Ht. unfold writes in Ht.
    apply list_elem_of_fmap in Ht as (e & -> & He). exact (Hno e He).
  - intros i e Hi [Hlr Hlc] Hlater.
    apply (Hlast i (trunc_row e, trunc_col e, e.2)); try assumption.
    + unfold writes. rewrite list_lookup_fmap, Hi. reflexivity.
    + intros j t' Hij Hj. unfold writes in Hj.
      rewrite list_lookup_fmap in Hj.
      destruct ((e0 :: evs) !! j) as [e'|] eqn:Hj'; [| discriminate].
      injection Hj as <-. exact (Hlater j e' Hij Hj').
Qed.

Lemma photon_events_to_image_wraps_witness :
  photon_events_to_image evs_neg = Ok img_neg /\
  forall r c, r < 1 -> c < 3 ->
    ((forall e, e ∈ evs_neg -> ~ lands_wrapped 1 3 e r c) ->
     cell img_neg r c = Some f64_zero) /\
    (forall i e, evs_neg !! i = Some e ->
       lands_wrapped 1 3 e r c ->
       (forall j e', i < j -> evs_neg !! j = Some e' ->
          ~ lands_wrapped 1 3 e' r c) ->
       cell img_neg r c = Some e.2).
Proof.
  assert (Hrun : photon_events_to_image evs_neg = Ok img_neg)
    by (vm_compute; reflexivity).
  exact (conj Hrun (photon_events_to_image_wraps evs_neg img_neg Hrun)).
Defined.


(** ** More on the pair of converters *)

(** X11. The intensity column of the output of [image_to_photon_events]
    is the row-major listing of the image converted to float64:
    zero-intensity pixels are emitted like any other.  For an image of at
    most 2^52 rows and columns every event it emits has pixel-center
    coordinates. *)
Theorem image_to_photon_events_columns {A} `{DType A} (image : ndarray2 A) :
  well_shaped image ->
  col2 (image_to_photon_events image) = astype_float64 (ravel image) /\
  (indexable image -> pixel_center_events (image_to_photon_events image)).
Proof.
  intros Hwf. split.
  - apply list_eq. intros i. unfold col2, ravel, astype_float64.
    rewrite !list_lookup_fmap.
    destruct (image_to_photon_events image !! i) as [e|] eqn:Hi.
    + destruct (image_event_form image i e Hwf Hi)
        as (r & c & v & _ & _ & _ & Hv & ->).
      rewrite Hv. reflexivity.
    + apply lookup_ge_None_1 in Hi.
      rewrite (length_image_to_photon_events image Hwf) in Hi.
      rewrite lookup_ge_None_2; [reflexivity |]. rewrite Hwf. exact Hi.
  - intros [Hrows Hcols]. apply Forall_lookup. intros i e Hi.
    destruct (image_event_form image i e Hwf Hi)
      as (r & c & v & Hr & Hc & _ & _ & ->).
    split; cbn [fst snd]; apply pixel_center_inv.
    + exists c. split; [lia | reflexivity].
    + exists r. split; [lia | reflexivity].
Qed.

Lemma image_to_photon_events_columns_witness :
  well_shaped frame22 /\
  col2 (image_to_photon_events frame22) = astype_float64 (ravel frame22) /\
  (indexable frame22 -> pixel_center_events (image_to_photon_events frame22)).
Proof.
  assert (Hwf : well_shaped frame22) by reflexivity.
  exact (conj Hwf (image_to_photon_events_columns frame22 Hwf)).
Defined.

(** X12. Whenever [photon_events_to_image] returns an image from some
    events, and that image has at most 2^52 rows and columns, listing it
    with [image_to_photon_events] and reconstructing again returns the
    same image: the dense listing is a faithful stand-in for any event
    list as far as the image goes. *)
Theorem reconstruct_list_reconstruct (evs : list (f64 * f64 * f64))
    (img : ndarray2 f64) :
  photon_events_to_image evs = Ok img -> indexable img ->
  photon_events_to_image (image_to_photon_events img) = Ok img.
Proof.
  intros Hrun Hidx.
  destruct (photon_events_to_image_ok evs img Hrun) as (_ & Hwf & H0 & H1).
  rewrite (roundtrip_image img Hwf (Nat.mul_le_mono 1 _ 1 _ H0 H1) Hidx).
  f_equal. apply image_astype_float64_id.
Qed.

Lemma img_neg_indexable : indexable img_neg.
Proof. split; vm_compute; discriminate. Defined.

Lemma reconstruct_list_reconstruct_witness :
  photon_events_to_image evs_neg = Ok img_neg /\ indexable img_neg /\
  photon_events_to_image (image_to_photon_events img_neg) = Ok img_neg.
Proof.
  assert (Hrun : photon_events_to_image evs_neg = Ok img_neg)
    by (vm_compute; reflexivity).
  exact (conj Hrun (conj img_neg_indexable
    (reconstruct_list_reconstruct evs_neg img_neg Hrun img_neg_indexable))).
Defined.

(** X13. An image with a zero-sized axis has no events, so the way back
    fails: [photon_events_to_image] raises ValueError on its listing and
    the shape is lost. *)
Theorem empty_image_roundtrip_raises {A} `{DType A} (image : ndarray2 A) :
  well_shaped image -> shape0 image * shape1 image = 0 ->
  photon_events_to_image (image_to_photon_events image) = Raise ValueError.
Proof.
  intros Hwf Hempty.
  assert (Hnil : image_to_photon_events image = []).
  { apply length_zero_iff_nil.
    rewrite length_image_to_photon_events by exact Hwf. exact Hempty. }
  rewrite Hnil. reflexivity.
Qed.

Lemma empty_image_roundtrip_raises_witness :
  well_shaped empty05 /\ 0 * 5 = 0 /\
  photon_events_to_image (image_to_photon_events empty05)
  = Raise ValueError.
Proof.
  assert (Hwf : well_shaped empty05) by reflexivity.
  exact (conj Hwf (conj eq_refl
    (empty_image_roundtrip_raises empty05 Hwf eq_refl))).
Defined.

Lemma ndarray2_ext (a b : ndarray2 f64) :
  well_shaped a -> well_shaped b ->
  shape0 a = shape0 b -> shape1 a = shape1 b ->
  (forall r c, r < shape0 a -> c < shape1 a -> cell a r c = cell b r c) ->
  a = b.
Proof.
  intros Hwa Hwb H0 H1 Hcell.
  assert (Hflat : flat a = flat b).
  { apply list_eq. intros i.
    destruct (decide (i < shape0 a * shape1 a)) as [Hi | Hi].
    - assert (HC : shape1 a <> 0) by (intros Hz; rewrite Hz in Hi; lia).
      assert (Hr : i / shape1 a < shape0 a)
        by (apply Nat.Div0.div_lt_upper_bound; lia).
      assert (Hc : i mod shape1 a < shape1 a)
        by (apply Nat.mod_upper_bound; exact HC).
      assert (Hsplit : i = i / shape1 a * shape1 a + i mod shape1 a)
        by (rewrite (Nat.div_mod i (shape1 a) HC) at 1; lia).
      specialize (Hcell _ _ Hr Hc). unfold cell in Hcell.
      rewrite <- H1, <- Hsplit in Hcell. exact Hcell.
    - rewrite !lookup_ge_None_2; [reflexivity | |].
      + rewrite Hwb, <- H0, <- H1. lia.
      + rewrite Hwa. lia. }
  destruct a, b; simpl in *; congruence.
Qed.

Lemma lands_somewhere_or_nowhere (evs : list (f64 * f64 * f64)) (r c : nat) :
  (exists i e, evs !! i = Some e /\ lands e r c) \/
  (forall e, e ∈ evs -> ~ lands e r c).
Proof.
  induction evs as [|e evs IH].
  - right. intros e He. apply elem_of_nil in He. contradiction.
  - destruct (decide (trunc_row e = Z.of_nat r /\ trunc_col e = Z.of_nat c))
      as [Hl | Hn].
    + left. exists 0, e. split; [reflexivity | exact Hl].
    + destruct IH as [(i & e' & Hi & Hl) | Hno].
      * left. exists (S i), e'. split; assumption.
      * right. intros e' He'. apply elem_of_cons in He' as [-> | He'];
          [exact Hn | exact (Hno e' He')].
Qed.

Lemma distinct_pixels_cell (evs : list (f64 * f64 * f64)) (img : ndarray2 f64) (r c : nat)
    (e : f64 * f64 * f64) :
  NoDup (pixel_of <$> evs) ->
  (forall i e', evs !! i = Some e' -> lands e' r c ->
     (forall j e'', i < j -> evs !! j = Some e'' -> ~ lands e'' r c) ->
     cell img r c = Some e'.2) ->
  e ∈ evs -> lands e r c -> cell img r c = Some e.2.
Proof.
  intros Hnd Hlast He Hl. apply list_elem_of_lookup_1 in He as [i Hi].
  apply (Hlast i e Hi Hl). intros j e' Hij Hj Hl'.
  assert (Hsame : pixel_of e' = pixel_of e).
  { unfold pixel_of. destruct Hl as [-> ->]. destruct Hl' as [-> ->]. reflexivity. }
  assert (i = j); [| lia].
  apply (NoDup_lookup (pixel_of <$> evs) i j (pixel_of e) Hnd).
  - rewrite list_lookup_fmap, Hi. reflexivity.
  - rewrite list_lookup_fmap, Hj. simpl. rewrite Hsame. reflexivity.
Qed.

(** X14. For events with non-negative indices that fall on pairwise
    different pixels, the order of the events does not matter: any
    reordering of the sequence reconstructs to the same image. *)
Theorem photon_events_to_image_order (evs evs' : list (f64 * f64 * f64)) :
  evs <> [] ->
  Forall (fun e => (0 <= trunc_row e)%Z /\ (0 <= trunc_col e)%Z) evs ->
  NoDup (pixel_of <$> evs) ->
  evs ≡ₚ evs' ->
  photon_events_to_image evs' = photon_events_to_image evs.
Proof.
  intros Hne Hpos Hnd Hperm.
  assert (Hne' : evs' <> []).
  { intros ->. apply Permutation_nil_r in Hperm. contradiction. }
  assert (Hpos' : Forall (fun e => (0 <= trunc_row e)%Z /\ (0 <= trunc_col e)%Z) evs')
    by (rewrite <- Hperm; exact Hpos).
  assert (Hnd' : NoDup (pixel_of <$> evs')) by (rewrite <- Hperm; exact Hnd).
  assert (Hmem : forall e, e ∈ evs <-> e ∈ evs')
    by (intros e; rewrite Hperm; reflexivity).
  destruct (photon_events_to_image_lands evs Hne Hpos)
    as (img & Hrun & Hwf & Hmr & Hmc & Hcell).
  destruct (photon_events_to_image_lands evs' Hne' Hpos')
    as (img' & Hrun' & Hwf' & Hmr' & Hmc' & Hcell').
  rewrite Hrun, Hrun'. f_equal.
  assert (Hmax : forall (f : f64 * f64 * f64 -> Z) m,
            is_max m (f <$> evs') -> is_max m (f <$> evs)).
  { intros f m [Hin Hub]. split.
    - rewrite Hperm. exact Hin.
    - intros z Hz. apply Hub. rewrite <- Hperm. exact Hz. }
  pose proof (is_max_unique _ _ _ Hmr (Hmax _ _ Hmr')) as Hs0.
  pose proof (is_max_unique _ _ _ Hmc (Hmax _ _ Hmc')) as Hs1.
  apply ndarray2_ext; [assumption | assumption | lia | lia |].
  intros r c Hr Hc.
  destruct (Hcell r c) as [Hzero Hlast]; [lia | lia |].
  destruct (Hcell' r c Hr Hc) as [Hzero' Hlast'].
  destruct (lands_somewhere_or_nowhere evs r c) as [(i & e & Hi & Hl) | Hno].
  - assert (He : e ∈ evs) by (eapply list_elem_of_lookup_2, Hi).
    rewrite (distinct_pixels_cell evs img r c e Hnd Hlast He Hl).
    apply (distinct_pixels_cell evs' img' r c e Hnd' Hlast'); [| exact Hl].
    apply Hmem, He.
  - rewrite (Hzero Hno). apply Hzero'.
    intros e He. apply Hno, Hmem, He.
Qed.

Lemma evs_ab_nonneg :
  Forall (fun e => (0 <= trunc_row e)%Z /\ (0 <= trunc_col e)%Z) evs_ab.
Proof.
  repeat (apply Forall_cons; split; [split; vm_compute; discriminate |]).
  apply Forall_nil. constructor.
Defined.

Lemma evs_ab_distinct : NoDup (pixel_of <$> evs_ab).
Proof.
  assert (E : pixel_of <$> evs_ab = [(0, 1)%Z; (0, 0)%Z])
    by (vm_compute; reflexivity).
  rewrite E. apply NoDup_cons. split.
  - intros Hin. apply list_elem_of_singleton in Hin. discriminate Hin.
  - apply NoDup_singleton.
Defined.

Lemma photon_events_to_image_order_witness :
  evs_ab <> [] /\
  Forall (fun e => (0 <= trunc_row e)%Z /\ (0 <= trunc_col e)%Z) evs_ab /\
  NoDup (pixel_of <$> evs_ab) /\ evs_ab ≡ₚ evs_ba /\
  photon_events_to_image evs_ba = photon_events_to_image evs_ab.
Proof.
  assert (Hne : evs_ab <> []) by discriminate.
  assert (Hperm : evs_ab ≡ₚ evs_ba) by apply perm_swap.
  exact (conj Hne (conj evs_ab_nonneg (conj evs_ab_distinct (conj Hperm
    (photon_events_to_image_order evs_ab evs_ba Hne evs_ab_nonneg
       evs_ab_distinct Hperm))))).
Defined.

(** ** The name printed by [load_nxfile] *)

Lemma last_component_no_slash (s : string) :
  forall acc, no_slash s = true -> last_component acc s = (acc ++ s)%string.
Proof.
  induction s as [|ch s IH]; intros acc Hs; simpl.
  - induction acc as [|a acc IHacc]; simpl; [| rewrite <- IHacc]; reflexivity.
  - simpl in Hs. apply andb_true_iff in Hs as [Hch Hs].
    apply negb_true_iff in Hch. rewrite Hch, (IH _ Hs).
    clear. induction acc as [|a acc IHacc]; simpl; [| rewrite IHacc]; reflexivity.
Qed.

Lemma last_component_after_slash (dir base : string) :
  forall acc,
    last_component acc (dir ++ String "/" base) = last_component EmptyString base.
Proof.
  induction dir as [|ch dir IH]; intros acc; simpl.
  - reflexivity.
  - destruct (Ascii.eqb ch "/"); apply IH.
Qed.

(** X15. The name [load_nxfile] prints is the part of the file name after
    its last ['/']: a name without ['/'] is printed whole, and a directory
    prefix, whatever it contains, is dropped. *)
Theorem last_component_basename (dir base : string) :
  no_slash base = true ->
  last_component EmptyString base = base /\
  last_component EmptyString (dir ++ String "/" base) = base.
Proof.
  intros Hbase.
  assert (H : last_component EmptyString base = base)
    by (rewrite (last_component_no_slash base EmptyString Hbase); reflexivity).
  split; [exact H |]. rewrite last_component_after_slash. exact H.
Qed.

Lemma last_component_basename_witness :
  no_slash "f12.nxs" = true /\
  last_component EmptyString "f12.nxs" = "f12.nxs"%string /\
  last_component EmptyString ("/data/run" ++ String "/" "f12.nxs")
  = "f12.nxs"%string.
Proof.
  exact (conj eq_refl (last_component_basename "/data/run" "f12.nxs" eq_refl)).
Defined.
